(** * ranking-up: offline top-decile selection and streaming top-K tracking

    A shallow embedding of [Leaderboard.cpp] and [PlayerStream.cpp], with the
    properties of the selectors, the bounded min-heap maintainer and the
    streaming tracker proved over it. *)

From Stdlib Require Import NArith ZArith Lia ZifyNat.
From stdpp Require Import base option list sorting gmap strings.

Local Open Scope N_scope.

(** * Machine integers *)

(** [size_t] is an unsigned 64-bit integer: a value of [N] below [2^64], with
    the wrap-around of its arithmetic written out by [wrap]. *)
Abbreviation size_t := N (only parsing).
Definition SIZE_WIDTH : N := 64.
Definition wrap (n : N) : size_t := n mod 2 ^ SIZE_WIDTH.

(** A subtraction on [size_t] wraps below zero. *)
Definition size_sub (a b : size_t) : size_t :=
  Z.to_N ((Z.of_N a - Z.of_N b) mod 2 ^ Z.of_N SIZE_WIDTH).

(** No [std::vector] holds more than [PTRDIFF_MAX] elements. *)
Definition max_size : N := 2 ^ 63 - 1.
Definition vector_size {A} (v : list A) : size_t := N.of_nat (length v).
Definition fits {A} (v : list A) : Prop := vector_size v <= max_size.

(** * Players *)

(** Modelled from the spec: [Player.hpp] is missing. A player is a value
    with a name and a level; players are compared solely by level. The
    level is a [size_t], as the values of [cutoffs_] are. *)
Record Player := mkPlayer { name_ : string; level_ : size_t }.

(** [operator<] and [operator>]. *)
Definition player_lt (a b : Player) : bool := level_ a <? level_ b.
Definition player_gt (a b : Player) : bool := level_ b <? level_ a.

(** * Outcomes *)

(** What the C++ standard leaves undefined is an outcome of its own. *)
Inductive ub_kind :=
| FrontOfEmpty      (* front() of an empty vector *)
| ModuloByZero      (* a % 0 *)
| OutOfRange        (* an element access outside the range *)
| BrokenPrecondition. (* a precondition of a library algorithm *)

(** [InvalidInterval] is the error kind the design document names; no path
    of the code raises it. *)
Inductive error :=
| SourceExhausted
| InvalidInterval
| UndefinedBehaviour (k : ub_kind)
| OutOfFuel.

Inductive outcome (A : Type) :=
| Ok (a : A)
| Err (e : error).
Arguments Ok {A} a.
Arguments Err {A} e.

#[global] Instance outcome_ret : MRet outcome := fun _ a => Ok a.
#[global] Instance outcome_bind : MBind outcome := fun _ _ f x =>
  match x with Ok a => f a | Err e => Err e end.

(** [v[i]], and the element at [first + i]: reading outside the range is
    undefined. *)
Definition at_ {A} (v : list A) (i : size_t) : outcome A :=
  match v !! N.to_nat i with
  | Some x => Ok x
  | None => Err (UndefinedBehaviour OutOfRange)
  end.

(** [v.front()]. *)
Definition front {A} (v : list A) : outcome A :=
  match v with
  | x :: _ => Ok x
  | [] => Err (UndefinedBehaviour FrontOfEmpty)
  end.

(** [a % b] on [size_t]. *)
Definition size_mod (a b : size_t) : outcome size_t :=
  if b =? 0 then Err (UndefinedBehaviour ModuloByZero) else Ok (a mod b).

(** [last - k] on iterators, as an offset from [begin]: leaving the vector
    is undefined. *)
Definition iter_sub (last k : size_t) : outcome size_t :=
  if k <=? last then Ok (last - k) else Err (UndefinedBehaviour OutOfRange).

(** * PlayerStream.cpp *)

(** The abstract interface [PlayerStream]: [nextPlayer] may throw and
    changes the stream, [remaining] is const. *)
Class PlayerStream (Src : Type) := {
  nextPlayer : Src → outcome Player * Src;
  remaining : Src → size_t
}.

Module VectorPlayerStream.

Record t := mk { players_ : list Player; currentIndex_ : size_t }.

(** The constructor copies the vector and starts at index 0. *)
Definition make (players : list Player) : t :=
  {| players_ := players; currentIndex_ := 0 |}.

Definition nextPlayer (s : t) : outcome Player * t :=
  if vector_size (players_ s) <=? currentIndex_ s then
    (Err SourceExhausted, s)
  else
    (at_ (players_ s) (currentIndex_ s),
     {| players_ := players_ s; currentIndex_ := wrap (currentIndex_ s + 1) |}).

Definition remaining (s : t) : size_t :=
  size_sub (vector_size (players_ s)) (currentIndex_ s).

(** The states a stream object goes through: as constructed, and after
    every call of [nextPlayer] that returned. *)
Inductive reachable : t → Prop :=
| reachable_make players : fits players → reachable (make players)
| reachable_next s p s' :
    reachable s → nextPlayer s = (Ok p, s') → reachable s'.

(** The players not yet produced. *)
Definition pending (s : t) : list Player :=
  drop (N.to_nat (currentIndex_ s)) (players_ s).

(** A stream never runs past the end of its vector. *)
Definition wf (s : t) : Prop :=
  currentIndex_ s ≤ vector_size (players_ s) ∧ fits (players_ s).

End VectorPlayerStream.

#[global] Instance VectorPlayerStream_PlayerStream :
  PlayerStream VectorPlayerStream.t :=
  {| nextPlayer := VectorPlayerStream.nextPlayer;
     remaining := VectorPlayerStream.remaining |}.

(** Modelled from the spec: [PlayerStream.hpp] is missing. What the
    interface promises of a stream, in the states [valid] it goes through:
    [remaining] is the count of the players not yet produced, [upcoming],
    and [nextPlayer] produces the first of them. *)
Class StreamContract (Src : Type) `{PlayerStream Src} := {
  valid : Src → Prop;
  upcoming : Src → list Player;
  upcoming_fits s : valid s → fits (upcoming s);
  remaining_counts s : valid s → remaining s = vector_size (upcoming s);
  nextPlayer_yields s p l :
    valid s → upcoming s = p :: l →
    ∃ s', nextPlayer s = (Ok p, s') ∧ valid s' ∧ upcoming s' = l
}.

(** * The algorithms of <algorithm> *)

Definition comparator := Player → Player → bool.

(** What the standard asks of a comparator: a strict weak ordering. *)
Record strict_weak_order (cmp : comparator) : Prop := {
  swo_irrefl a : cmp a a = false;
  swo_trans a b c : cmp a b = true → cmp b c = true → cmp a c = true;
  swo_neg_trans a b c : cmp a b = false → cmp b c = false → cmp a c = false
}.

(** [std::is_sorted]: no element is less than one before it. *)
Definition in_order (cmp : comparator) : relation Player :=
  λ a b, cmp b a = false.

#[global] Instance in_order_dec cmp a b : Decision (in_order cmp a b).
Proof. unfold in_order. apply _. Defined.

Definition sorted_by (cmp : comparator) : list Player → Prop :=
  StronglySorted (in_order cmp).

(** [std::is_heap]: no parent is less than a child of its own; the parent
    of position [i] is position [(i - 1) / 2]. *)
Definition parent (i : nat) : nat := (i - 1) / 2.

Definition is_heap (cmp : comparator) (v : list Player) : Prop :=
  ∀ i p c, (0 < i)%nat → v !! parent i = Some p → v !! i = Some c → cmp p c = false.

Definition is_heapb (cmp : comparator) (v : list Player) : bool :=
  forallb (λ i, match v !! parent i, v !! i with
                | Some p, Some c => negb (cmp p c)
                | _, _ => true
                end) (seq 1 (length v - 1)).

(** The library's [sort], [nth_element], [make_heap] and [pop_heap] are
    taken as given: any implementation of them, of which the standard fixes
    the contract and not the algorithm. The position [nth] is an offset from
    [first]. *)
Class StdAlgorithms := {
  std_sort : comparator → list Player → list Player;
  std_nth_element : comparator → list Player → nat → list Player;
  std_make_heap : comparator → list Player → list Player;
  std_pop_heap : comparator → list Player → list Player
}.

(** Their contracts, from the C++ standard ([alg.sorting]). *)
Class StdContracts (STL : StdAlgorithms) : Prop := {
  sort_perm cmp v : strict_weak_order cmp → std_sort cmp v ≡ₚ v;
  sort_sorted cmp v : strict_weak_order cmp → sorted_by cmp (std_sort cmp v);
  nth_element_perm cmp v nth :
    strict_weak_order cmp → (nth ≤ length v)%nat →
    std_nth_element cmp v nth ≡ₚ v;
  nth_element_partition cmp v nth i j x y :
    strict_weak_order cmp → (nth ≤ length v)%nat →
    (i < nth)%nat → (nth ≤ j)%nat →
    std_nth_element cmp v nth !! i = Some x →
    std_nth_element cmp v nth !! j = Some y →
    cmp y x = false;
  make_heap_perm cmp v : strict_weak_order cmp → std_make_heap cmp v ≡ₚ v;
  make_heap_heap cmp v : strict_weak_order cmp → is_heap cmp (std_make_heap cmp v);
  pop_heap_spec cmp x v :
    strict_weak_order cmp → is_heap cmp (x :: v) →
    ∃ h, std_pop_heap cmp (x :: v) = h ++ [x] ∧ h ≡ₚ v ∧ is_heap cmp h
}.

(** A reference implementation, by full sorts: a sequence sorted downwards
    is a heap, and a sorted sequence is partitioned at every position. *)
Definition reference_sort (cmp : comparator) : list Player → list Player :=
  merge_sort (in_order cmp).

#[global] Instance reference_stl : StdAlgorithms := {|
  std_sort := reference_sort;
  std_nth_element cmp v _ := reference_sort cmp v;
  std_make_heap cmp v := reference_sort (flip cmp) v;
  std_pop_heap cmp v :=
    match v with
    | [] => []
    | x :: v => reference_sort (flip cmp) v ++ [x]
    end
|}.

(** The calls, with the preconditions whose violation is undefined. *)
Definition nth_element `{StdAlgorithms} (cmp : comparator)
    (v : list Player) (nth : size_t) : outcome (list Player) :=
  if nth <=? vector_size v then Ok (std_nth_element cmp v (N.to_nat nth))
  else Err (UndefinedBehaviour BrokenPrecondition).

Definition pop_heap `{StdAlgorithms} (cmp : comparator)
    (v : list Player) : outcome (list Player) :=
  match v with
  | [] => Err (UndefinedBehaviour BrokenPrecondition)
  | _ :: _ =>
      if is_heapb cmp v then Ok (std_pop_heap cmp v)
      else Err (UndefinedBehaviour BrokenPrecondition)
  end.

(** * Leaderboard.cpp *)

(** [elapsed_], a wall-clock duration, is left out. *)
Record RankingResult := mkRankingResult {
  top_ : list Player;
  cutoffs_ : gmap size_t size_t
}.

Module Offline.
Section Offline.
Context `{StdAlgorithms}.

(** Both selectors reorder the vector they are given by reference: they
    return it next to the result. *)
Definition quickSelectRank (players : list Player)
    : outcome (RankingResult * list Player) :=
  let totalPlayers := vector_size players in
  let topCount := wrap (totalPlayers + 9) / 10 in
  nth ← iter_sub (vector_size players) topCount;
  players ← nth_element player_lt players nth;
  first ← iter_sub (vector_size players) topCount;
  let topPlayers := drop (N.to_nat first) players in
  let topPlayers := std_sort player_lt topPlayers in
  mret (mkRankingResult topPlayers ∅, players).

(** The loop of [heapRank], from its iteration [i] on. *)
Fixpoint heapRank_loop (fuel : nat) (topCount i : size_t)
    (players topPlayers : list Player) : outcome (list Player * list Player) :=
  match fuel with
  | O => Err OutOfFuel
  | S fuel =>
      if i <? topCount then
        last ← iter_sub (vector_size players) i;
        popped ← pop_heap player_lt (take (N.to_nat last) players);
        let players := popped ++ drop (N.to_nat last) players in
        p ← at_ players (size_sub (size_sub (vector_size players) 1) i);
        heapRank_loop fuel topCount (wrap (i + 1)) players (topPlayers ++ [p])
      else mret (players, topPlayers)
  end.

Definition heapRank (players : list Player)
    : outcome (RankingResult * list Player) :=
  let totalPlayers := vector_size players in
  let topCount := wrap (totalPlayers + 9) / 10 in
  let players := std_make_heap player_lt players in
  '(players, topPlayers) ← heapRank_loop (S (N.to_nat topCount)) topCount 0 players [];
  let topPlayers := std_sort player_lt topPlayers in
  mret (mkRankingResult topPlayers ∅, players).

End Offline.
End Offline.

(** ** Calls on the stream *)

(** [rankIncoming] works on a stream it is given by reference. Its calls on
    the stream are recorded, in the order they are made. *)
Inductive event :=
| CallRemaining (r : size_t)   (* remaining(), and what it returned *)
| CallNextPlayer.              (* nextPlayer() *)

Record World (Src : Type) := mkWorld { stream : Src; calls : list event }.
Arguments mkWorld {Src} stream calls.
Arguments stream {Src} w.
Arguments calls {Src} w.

(** A computation on a stream of type [Src]: it fails or returns, and leaves
    the stream as it then is. *)
Definition M (Src A : Type) : Type := World Src → outcome A * World Src.

#[global] Instance M_ret {Src} : MRet (M Src) := λ _ a w, (Ok a, w).
#[global] Instance M_bind {Src} : MBind (M Src) := λ _ _ f m w,
  match m w with
  | (Ok a, w) => f a w
  | (Err e, w) => (Err e, w)
  end.

Definition lift {Src A} (x : outcome A) : M Src A := λ w, (x, w).

Definition call_remaining `{PlayerStream Src} : M Src size_t := λ w,
  let r := remaining (stream w) in
  (Ok r, mkWorld (stream w) (calls w ++ [CallRemaining r])).

Definition call_nextPlayer `{PlayerStream Src} : M Src Player := λ w,
  let '(p, s) := nextPlayer (stream w) in
  (p, mkWorld s (calls w ++ [CallNextPlayer])).

Module Online.

(** What is left in [target] after the call. *)
Inductive moved := Intact (p : Player) | MovedFrom.

(** [std::swap] of the elements at [first + i] and [first + j]. *)
Definition swap (heap : list Player) (i j : size_t) : outcome (list Player) :=
  a ← at_ heap i;
  b ← at_ heap j;
  mret (<[N.to_nat j := a]> (<[N.to_nat i := b]> heap)).

(** An assignment to the element at [first + i]. *)
Definition store (heap : list Player) (i : size_t) (x : Player)
    : outcome (list Player) :=
  _ ← at_ heap i;
  mret (<[N.to_nat i := x]> heap).

(** One of the two tests of the loop: the child at [childIdx] is read only
    if it is within the heap, and is the smallest if it is less than the
    smallest so far. *)
Definition smaller_of (heapSize : size_t) (heap : list Player)
    (childIdx smallestIdx : size_t) : outcome size_t :=
  if childIdx <? heapSize then
    child ← at_ heap childIdx;
    smallest ← at_ heap smallestIdx;
    mret (if player_lt child smallest then childIdx else smallestIdx)
  else mret smallestIdx.

(** The loop of [replaceMin], from the position [index] on. The range
    [first, last) is the list of its elements. *)
Fixpoint percolate (fuel : nat) (heapSize : size_t) (heap : list Player)
    (index : size_t) : outcome (list Player) :=
  match fuel with
  | O => Err OutOfFuel
  | S fuel =>
      let leftChildIdx := wrap (2 * index + 1) in
      let rightChildIdx := wrap (2 * index + 2) in
      let smallestIdx := index in
      smallestIdx ← smaller_of heapSize heap leftChildIdx smallestIdx;
      smallestIdx ← smaller_of heapSize heap rightChildIdx smallestIdx;
      if smallestIdx =? index then mret heap
      else
        heap ← swap heap index smallestIdx;
        percolate fuel heapSize heap smallestIdx
  end.

(** The loop moves [index] to a child each time round, so it goes round at
    most [heapSize] times. *)
Definition replaceMin (range : list Player) (target : Player)
    : outcome (list Player * moved) :=
  let heapSize := vector_size range in
  if heapSize =? 0 then mret (range, Intact target)
  else
    range ← store range 0 target;
    range ← percolate (length range) heapSize range 0;
    mret (range, MovedFrom).

Section Online.
Context `{StdAlgorithms} `{PlayerStream Src}.

(** The first loop of [rankIncoming]. *)
Fixpoint prime (fuel : nat) (reporting_interval : size_t)
    (topPlayers : list Player) (playerCount : size_t)
    : M Src (list Player * size_t) :=
  match fuel with
  | O => lift (Err OutOfFuel)
  | S fuel =>
      if playerCount <? reporting_interval then
        r ← call_remaining;
        if 0 <? r then
          p ← call_nextPlayer;
          prime fuel reporting_interval (topPlayers ++ [p]) (wrap (playerCount + 1))
        else mret (topPlayers, playerCount)
      else mret (topPlayers, playerCount)
  end.

(** [cutoffs[playerCount] = topPlayers.front().level_]. *)
Definition record_cutoff (topPlayers : list Player)
    (cutoffs : gmap size_t size_t) (playerCount : size_t)
    : outcome (gmap size_t size_t) :=
  root ← front topPlayers;
  mret (<[playerCount := level_ root]> cutoffs).

(** The body of the second loop, once [next] is read and counted. *)
Definition process_player (reporting_interval : size_t)
    (topPlayers : list Player) (cutoffs : gmap size_t size_t)
    (playerCount : size_t) (next : Player)
    : outcome (list Player * gmap size_t size_t) :=
  root ← front topPlayers;
  topPlayers ←
    (if level_ root <? level_ next then
       '(topPlayers, _) ← replaceMin topPlayers next;
       mret topPlayers
     else mret topPlayers);
  m ← size_mod playerCount reporting_interval;
  cutoffs ←
    (if m =? 0 then record_cutoff topPlayers cutoffs playerCount
     else mret cutoffs);
  mret (topPlayers, cutoffs).

(** The second loop of [rankIncoming]. *)
Fixpoint process (fuel : nat) (reporting_interval : size_t)
    (topPlayers : list Player) (cutoffs : gmap size_t size_t)
    (playerCount : size_t)
    : M Src (list Player * gmap size_t size_t * size_t) :=
  match fuel with
  | O => lift (Err OutOfFuel)
  | S fuel =>
      r ← call_remaining;
      if 0 <? r then
        next ← call_nextPlayer;
        let playerCount := wrap (playerCount + 1) in
        '(topPlayers, cutoffs) ←
          lift (process_player reporting_interval topPlayers cutoffs playerCount next);
        process fuel reporting_interval topPlayers cutoffs playerCount
      else mret (topPlayers, cutoffs, playerCount)
  end.

(** [fuel] bounds the number of times each loop goes round: a stream need
    not end. *)
Definition rankIncoming (fuel : nat) (reporting_interval : size_t)
    : M Src RankingResult :=
  let topPlayers := [] in
  let cutoffs := ∅ in
  let playerCount := 0 in
  '(topPlayers, playerCount) ← prime fuel reporting_interval topPlayers playerCount;
  let topPlayers := std_make_heap player_gt topPlayers in
  cutoffs ←
    (if playerCount =? reporting_interval
     then lift (record_cutoff topPlayers cutoffs playerCount)
     else mret cutoffs);
  '(topPlayers, cutoffs, playerCount) ←
    process fuel reporting_interval topPlayers cutoffs playerCount;
  m ← lift (size_mod playerCount reporting_interval);
  cutoffs ←
    (if negb (m =? 0)
     then lift (record_cutoff topPlayers cutoffs playerCount)
     else mret cutoffs);
  let topPlayers := std_sort player_lt topPlayers in
  mret (mkRankingResult topPlayers cutoffs).

End Online.
End Online.

(** * Clients of the stream, and what the claims speak of *)

(** [k] calls of [nextPlayer] in a row, up to the first that throws. *)
Fixpoint pull `{PlayerStream Src} (k : nat) (s : Src) : outcome (list Player) * Src :=
  match k with
  | O => (Ok [], s)
  | S k =>
      match nextPlayer s with
      | (Ok p, s) =>
          match pull k s with
          | (Ok ps, s) => (Ok (p :: ps), s)
          | (Err e, s) => (Err e, s)
          end
      | (Err e, s) => (Err e, s)
      end
  end.

(** Calls of [remaining] alone, all answered 0. *)
Fixpoint only_zero (tr : list event) : bool :=
  match tr with
  | [] => true
  | CallRemaining r :: tr => (r =? 0) && only_zero tr
  | CallNextPlayer :: _ => false
  end.

(** The discipline of a consumer: every [nextPlayer] comes right after a
    [remaining] that returned a positive count, and after a [remaining]
    that returned 0 nothing is pulled any more. *)
Fixpoint checked_pulls (tr : list event) : bool :=
  match tr with
  | CallRemaining r :: CallNextPlayer :: tr' => (0 <? r) && checked_pulls tr'
  | _ => only_zero tr
  end.

Definition levels (v : list Player) : list size_t := level_ <$> v.

(** The naive baseline: sort all the levels, keep the [k] largest; they
    come in ascending order. *)
Definition naive_top (k : nat) (ls : list size_t) : list size_t :=
  let sorted := merge_sort N.le ls in
  drop (length sorted - k) sorted.

Definition ascending : list size_t → Prop := Sorted N.le.

(** The milestones of a stream of [total] players at the interval
    [interval]. *)
Definition cutoff_keys (interval total : size_t) : gset size_t :=
  list_to_set ((λ k, N.of_nat k * interval) <$> seq 1 (N.to_nat (total / interval)))
  ∪ (if total mod interval =? 0 then ∅ else {[ total ]}).

(** * The vocabulary of the proofs *)

(** The players of the scenarios, by their levels. *)
Definition players_of (ls : list size_t) : list Player := mkPlayer "" <$> ls.

(** A min-heap by level: no player is at a higher level than a child of
    its own. *)
Definition min_heap (v : list Player) : Prop :=
  ∀ i p c, (0 < i)%nat → v !! parent i = Some p → v !! i = Some c →
           level_ p ≤ level_ c.

(** The size of the top decile, as a number of elements. *)
Definition top_count (n : nat) : nat := (n + 9) / 10.

(** [sel] holds the largest of [input], and [rest] what is left. *)
Definition selects (input rest sel : list Player) : Prop :=
  input ≡ₚ rest ++ sel ∧
  ∀ a b, a ∈ rest → b ∈ sel → level_ a ≤ level_ b.

(** What both selectors establish: the result is the sorted selection of
    [k] largest players, and the vector is a permutation of itself. *)
Definition top_decile_of (players : list Player) (r : RankingResult)
    (players' : list Player) : Prop :=
  players' ≡ₚ players ∧ cutoffs_ r = ∅ ∧ sorted_by player_lt (top_ r) ∧
  ∃ rest sel, selects players rest sel ∧ top_ r ≡ₚ sel ∧
              length sel = top_count (length players).

(** A heap but for the element at [i], which may be above its children;
    the children of [i] are not below the parent of [i]. *)
Definition almost_heap (a : list Player) (i : nat) : Prop :=
  (∀ j p c, (0 < j)%nat → parent j ≠ i →
     a !! parent j = Some p → a !! j = Some c → level_ p ≤ level_ c) ∧
  (∀ j g c, (0 < i)%nat → parent j = i →
     a !! parent i = Some g → a !! j = Some c → level_ g ≤ level_ c).

(** The smaller of the elements at [c] and [s], by position. *)
Definition pick (a : list Player) (c s : nat) : nat :=
  match a !! c, a !! s with
  | Some l, Some x => if player_lt l x then c else s
  | _, _ => s
  end.

(** The cutoff due at the count [c]: the least level among the
    min(interval, c) largest of the first [c] players. *)
Definition cutoff_at (interval : size_t) (seen : list Player) (c : size_t)
    : option size_t :=
  head (naive_top (N.to_nat (N.min interval c)) (levels (take (N.to_nat c) seen))).

(** The counts at which the second loop records a cutoff. *)
Definition milestone (interval count c : size_t) : Prop :=
  0 < c ≤ count ∧ c mod interval = 0.

(** What the tracker keeps true of its buffer and cutoffs, once it has read
    the players [seen]. *)
Record tracked (interval : size_t) (seen topPlayers : list Player)
    (cutoffs : gmap size_t size_t) : Prop := {
  tracked_heap : is_heap player_gt topPlayers;
  tracked_selects : ∃ rest, selects seen rest topPlayers;
  tracked_length : length topPlayers = (N.to_nat interval `min` length seen)%nat;
  tracked_sound c v :
    cutoffs !! c = Some v →
    milestone interval (vector_size seen) c ∧ cutoff_at interval seen c = Some v;
  tracked_complete c :
    milestone interval (vector_size seen) c → is_Some (cutoffs !! c)
}.

(** Calls in pairs: [remaining], with a positive answer, then
    [nextPlayer]. *)
Fixpoint pulls_only (tr : list event) : bool :=
  match tr with
  | [] => true
  | CallRemaining r :: CallNextPlayer :: tr => (0 <? r) && pulls_only tr
  | _ => false
  end.

(** An outcome other than [SourceExhausted]. *)
Definition benign {A} (x : outcome A) : Prop := x ≠ Err SourceExhausted.

Section Discipline.
Context `{PlayerStream Src}.

(** The calls so far are pairs, then answers 0; once the answer was 0 the
    stream has nothing left. *)
Definition disciplined (w : World Src) : Prop :=
  ∃ p z, calls w = p ++ z ∧ pulls_only p = true ∧ only_zero z = true ∧
         (z ≠ [] → remaining (stream w) = 0).

(** What every run keeps: the discipline, and on a stream of which
    [honest] holds, that [honest] holds and an outcome other than
    [SourceExhausted]. *)
Definition kept (honest : Src → Prop) {A} (w : World Src)
    (run : outcome A * World Src) : Prop :=
  disciplined run.2 ∧ (honest (stream w) → honest (stream run.2) ∧ benign run.1).

End Discipline.

(** * Machine arithmetic within bounds *)

(** [lia] is to read divisions by a constant. *)
Ltac Zify.zify_post_hook ::= Z.to_euclidean_division_equations.

Lemma wrap_small n : n < 2 ^ 64 → wrap n = n.
Proof. intros Hn. unfold wrap, SIZE_WIDTH. by apply N.mod_small. Qed.

Lemma size_sub_small a b : b ≤ a → a < 2 ^ 64 → size_sub a b = a - b.
Proof.
  intros Hba Ha. unfold size_sub, SIZE_WIDTH.
  rewrite Z.mod_small; [lia|].
  change (2 ^ Z.of_N 64)%Z with (Z.of_N (2 ^ 64)). lia.
Qed.

Lemma fits_lt {A} (v : list A) : fits v → vector_size v < 2 ^ 63.
Proof. unfold fits. change (2 ^ 63) with (max_size + 1). lia. Qed.

(** Sizes below the bounds of [size_t], for [lia]. *)
Ltac size_lia :=
  unfold fits, vector_size, max_size in *;
  rewrite ?length_app in *; simpl length in *;
  change (2 ^ 64) with 18446744073709551616 in *;
  change (2 ^ 63) with 9223372036854775808 in *;
  lia.

Lemma fits_perm {A} (v v' : list A) : v ≡ₚ v' → fits v → fits v'.
Proof. unfold fits, vector_size. by intros ->. Qed.

(** * The comparators of [Player] *)

(** Comparisons of levels, as inequalities for [lia]. *)
Ltac level_lia :=
  unfold player_lt, player_gt, in_order in *;
  rewrite ?N.ltb_lt, ?N.ltb_ge, ?N.leb_le, ?N.leb_gt, ?N.eqb_eq, ?N.eqb_neq in *;
  lia.

Lemma player_lt_swo : strict_weak_order player_lt.
Proof. split; intros; level_lia. Qed.

Lemma player_gt_swo : strict_weak_order player_gt.
Proof. split; intros; level_lia. Qed.

Lemma swo_asym cmp a b : strict_weak_order cmp → cmp a b = true → cmp b a = false.
Proof.
  intros Hswo Hab. destruct (cmp b a) eqn:Hba; [|done].
  by rewrite <-(swo_irrefl _ Hswo a), (swo_trans _ Hswo a b a).
Qed.

#[global] Instance in_order_trans cmp : strict_weak_order cmp → Transitive (in_order cmp).
Proof. intros Hswo a b c Hab Hbc. unfold in_order in *. eauto using swo_neg_trans. Qed.

#[global] Instance in_order_total cmp : strict_weak_order cmp → Total (in_order cmp).
Proof.
  intros Hswo a b. unfold in_order.
  destruct (cmp b a) eqn:Hba; [right|by left]. by apply swo_asym.
Qed.

Lemma flip_swo cmp : strict_weak_order cmp → strict_weak_order (flip cmp).
Proof. intros [Hi Ht Hn]. split; unfold flip; eauto. Qed.

(** * The vector stream *)

Module StreamFacts.
Import VectorPlayerStream.

Lemma nextPlayer_ok s : wf s → currentIndex_ s < vector_size (players_ s) →
  ∃ p, players_ s !! N.to_nat (currentIndex_ s) = Some p ∧
       nextPlayer s = (Ok p, mk (players_ s) (currentIndex_ s + 1)).
Proof.
  intros [Hle Hfit] Hlt. unfold nextPlayer, at_.
  destruct (N.leb_spec (vector_size (players_ s)) (currentIndex_ s)); [lia|].
  destruct (lookup_lt_is_Some_2 (players_ s) (N.to_nat (currentIndex_ s))) as [p Hp].
  { unfold vector_size in *. lia. }
  exists p. rewrite Hp, wrap_small; [done|].
  apply fits_lt in Hfit. lia.
Qed.

Lemma nextPlayer_wf s p s' : wf s → nextPlayer s = (Ok p, s') → wf s'.
Proof.
  intros Hwf Hnext. unfold nextPlayer in Hnext.
  destruct (N.leb_spec (vector_size (players_ s)) (currentIndex_ s)); [done|].
  destruct (nextPlayer_ok s Hwf) as (q & _ & Hq); [done|].
  unfold nextPlayer in Hq.
  destruct (N.leb_spec (vector_size (players_ s)) (currentIndex_ s)); [lia|].
  rewrite Hq in Hnext. injection Hnext as <- <-.
  destruct Hwf. split; simpl; [lia|done].
Qed.

Lemma reachable_wf s : reachable s → wf s.
Proof.
  induction 1 as [v Hv|s p s' _ IH Hnext]; [|by eapply nextPlayer_wf].
  split; simpl; [lia|done].
Qed.

Lemma remaining_wf s : wf s →
  remaining s = vector_size (players_ s) - currentIndex_ s.
Proof.
  intros [Hle Hfit]. unfold remaining. apply size_sub_small; [done|].
  apply fits_lt in Hfit. lia.
Qed.

Lemma remaining_pending s : wf s → remaining s = vector_size (pending s).
Proof.
  intros Hwf. rewrite remaining_wf by done.
  unfold pending, vector_size. rewrite length_drop. lia.
Qed.

Lemma pull_make v k : fits v → (k ≤ length v)%nat →
  ∀ i, (i + k ≤ length v)%nat →
  pull k (mk v (N.of_nat i)) = (Ok (take k (drop i v)), mk v (N.of_nat (i + k))).
Proof.
  intros Hfit _. induction k as [|k IH]; intros i Hik; simpl.
  { by rewrite Nat.add_0_r. }
  destruct (nextPlayer_ok (mk v (N.of_nat i))) as (p & Hp & Hnext).
  { split; [unfold vector_size|]; simpl; [lia|done]. }
  { unfold vector_size; simpl. lia. }
  simpl in *. rewrite Hnext. rewrite Nat2N.id in Hp.
  replace (N.of_nat i + 1) with (N.of_nat (S i)) by lia.
  rewrite IH by lia.
  rewrite (drop_S _ _ _ Hp). simpl. repeat f_equal. lia.
Qed.

(** What a stream does next, by the players it has yet to produce. *)
Lemma stream_step s : wf s →
  match pending s with
  | [] => remaining s = 0
  | p :: l =>
      0 < remaining s ∧
      ∃ s', nextPlayer s = (Ok p, s') ∧ wf s' ∧ pending s' = l
  end.
Proof.
  intros Hwf. pose proof (remaining_pending s Hwf) as Hrem.
  destruct (pending s) as [|p l] eqn:Hpend; [done|].
  split; [rewrite Hrem; size_lia|].
  assert (Hlt : currentIndex_ s < vector_size (players_ s)).
  { rewrite remaining_wf in Hrem by done. size_lia. }
  destruct (nextPlayer_ok s Hwf Hlt) as (q & Hq & Hnext).
  unfold pending in Hpend. rewrite (drop_S _ _ _ Hq) in Hpend.
  injection Hpend as -> Hl.
  eexists. split_and!; [done|by eapply nextPlayer_wf|].
  unfold pending. simpl. rewrite <-Hl. f_equal. lia.
Qed.

Lemma pending_fits s : wf s → fits (pending s).
Proof.
  intros [_ Hfit]. unfold fits, vector_size, pending in *.
  rewrite length_drop. lia.
Qed.

Lemma next_pending s p l : wf s → pending s = p :: l →
  ∃ s', nextPlayer s = (Ok p, s') ∧ wf s' ∧ pending s' = l.
Proof.
  intros Hwf Hpend. pose proof (stream_step s Hwf) as Hstep.
  rewrite Hpend in Hstep. by destruct Hstep.
Qed.

End StreamFacts.

(** The vector stream keeps the promises of the interface. *)
#[global] Instance VectorPlayerStream_contract :
  StreamContract VectorPlayerStream.t :=
  {| valid := VectorPlayerStream.wf;
     upcoming := VectorPlayerStream.pending;
     upcoming_fits := StreamFacts.pending_fits;
     remaining_counts := StreamFacts.remaining_pending;
     nextPlayer_yields := StreamFacts.next_pending |}.

(** * Sorted sequences and heaps *)

Lemma sorted_lookup {A} (R : relation A) (l : list A) i j x y :
  StronglySorted R l → (i < j)%nat → l !! i = Some x → l !! j = Some y → R x y.
Proof.
  intros Hsorted Hij Hx Hy. rewrite <-(take_drop j l) in Hsorted.
  eapply StronglySorted_app_1_elem_of; [done| |].
  - apply elem_of_take. eauto.
  - apply list_elem_of_lookup. exists 0%nat. by rewrite lookup_drop, Nat.add_0_r.
Qed.

Lemma parent_lt i : (0 < i)%nat → (parent i < i)%nat.
Proof. intros Hi. unfold parent. apply Nat.Div0.div_lt_upper_bound. lia. Qed.

Lemma sorted_is_heap cmp v : StronglySorted (λ a b, cmp a b = false) v → is_heap cmp v.
Proof.
  intros Hsorted i p c Hi Hp Hc.
  by apply (sorted_lookup _ v (parent i) i p c Hsorted (parent_lt i Hi)).
Qed.

(** The root of a heap is not less than any of its elements. *)
Lemma heap_root cmp x v y :
  strict_weak_order cmp → is_heap cmp (x :: v) → y ∈ x :: v → cmp x y = false.
Proof.
  intros Hswo Hheap [i Hi]%list_elem_of_lookup. revert y Hi.
  induction (lt_wf i) as [i _ IH]; intros y Hi.
  destruct (decide (i = 0%nat)) as [->|Hne].
  { injection Hi as <-. apply (swo_irrefl _ Hswo). }
  assert (Hlt : (parent i < i)%nat) by (apply parent_lt; lia).
  destruct (lookup_lt_is_Some_2 (x :: v) (parent i)) as [p Hp].
  { apply lookup_lt_Some in Hi. lia. }
  apply (swo_neg_trans _ Hswo x p y); [by apply (IH (parent i))|].
  apply (Hheap i); [lia|done..].
Qed.

Lemma is_heapb_true cmp v : is_heap cmp v → is_heapb cmp v = true.
Proof.
  intros Hheap. unfold is_heapb. apply forallb_forall. intros i Hi.
  apply in_seq in Hi.
  destruct (v !! parent i) as [p|] eqn:Hp, (v !! i) as [c|] eqn:Hc; try done.
  rewrite (Hheap i p c); [done|lia|done..].
Qed.

(** * The reference implementation meets the contracts *)

Lemma reference_sort_perm cmp v : reference_sort cmp v ≡ₚ v.
Proof. apply merge_sort_Permutation. Qed.

Lemma reference_sort_sorted cmp v :
  strict_weak_order cmp → sorted_by cmp (reference_sort cmp v).
Proof.
  intros Hswo. apply StronglySorted_merge_sort.
  - by apply in_order_trans.
  - by apply in_order_total.
Qed.

Lemma reference_sort_heap cmp v :
  strict_weak_order cmp → is_heap cmp (reference_sort (flip cmp) v).
Proof.
  intros Hswo. apply sorted_is_heap.
  by apply (reference_sort_sorted (flip cmp) v), flip_swo.
Qed.

#[global] Instance reference_contracts : StdContracts reference_stl.
Proof.
  split; simpl.
  - intros. apply reference_sort_perm.
  - intros. by apply reference_sort_sorted.
  - intros. apply reference_sort_perm.
  - intros cmp v nth i j x y Hswo _ Hi Hj Hx Hy.
    apply (sorted_lookup _ _ i j x y (reference_sort_sorted cmp v Hswo)); [lia|done..].
  - intros. apply reference_sort_perm.
  - intros. by apply reference_sort_heap.
  - intros cmp x v Hswo _. exists (reference_sort (flip cmp) v).
    split_and!; [done|apply reference_sort_perm|by apply reference_sort_heap].
Qed.

(** * Selections and the naive baseline *)

Lemma sorted_levels v : sorted_by player_lt v → StronglySorted N.le (levels v).
Proof.
  unfold sorted_by, levels. induction 1 as [|a v _ IH Hall]; simpl.
  { constructor. }
  constructor; [done|]. apply Forall_fmap. eapply Forall_impl; [done|].
  intros b Hb. simpl. level_lia.
Qed.

Lemma ascending_unique (l1 l2 : list size_t) :
  StronglySorted N.le l1 → StronglySorted N.le l2 → l1 ≡ₚ l2 → l1 = l2.
Proof. apply StronglySorted_unique; apply _. Qed.

Lemma merge_sort_le_sorted (ls : list size_t) : StronglySorted N.le (merge_sort N.le ls).
Proof. apply StronglySorted_merge_sort; apply _. Qed.

Lemma naive_top_split (rest sel ls : list size_t) :
  ls ≡ₚ rest ++ sel →
  (∀ a b, a ∈ rest → b ∈ sel → a ≤ b) →
  naive_top (length sel) ls = merge_sort N.le sel.
Proof.
  intros Hperm Hle. unfold naive_top.
  assert (Hsplit : merge_sort N.le ls = merge_sort N.le rest ++ merge_sort N.le sel).
  { apply ascending_unique.
    - apply merge_sort_le_sorted.
    - apply StronglySorted_app. split_and!; [|apply merge_sort_le_sorted..].
      intros a b. rewrite !merge_sort_Permutation. apply Hle.
    - by rewrite !merge_sort_Permutation. }
  rewrite Hsplit. apply drop_app_length'.
  pose proof (Permutation_length (merge_sort_Permutation N.le rest)).
  pose proof (Permutation_length (merge_sort_Permutation N.le sel)).
  rewrite length_app. lia.
Qed.

(** A sorted permutation of a selection is the baseline. *)
Lemma selects_naive_top input rest sel top :
  selects input rest sel → top ≡ₚ sel → sorted_by player_lt top →
  levels top = naive_top (length sel) (levels input).
Proof.
  intros [Hperm Hle] Htop Hsorted.
  rewrite <-(length_fmap level_ sel).
  rewrite (naive_top_split (levels rest) (levels sel)).
  - apply ascending_unique; [by apply sorted_levels|apply merge_sort_le_sorted|].
    unfold levels. by rewrite merge_sort_Permutation, Htop.
  - unfold levels. by rewrite Hperm, fmap_app.
  - intros a b [a' [-> Ha]]%list_elem_of_fmap [b' [-> Hb]]%list_elem_of_fmap. eauto.
Qed.

Lemma naive_top_ascending k ls : ascending (naive_top k ls).
Proof.
  unfold ascending, naive_top. apply StronglySorted_Sorted.
  pose proof (merge_sort_le_sorted ls) as Hs.
  rewrite <-(take_drop (length (merge_sort N.le ls) - k)) in Hs.
  by apply StronglySorted_app in Hs as (_ & _ & Hs).
Qed.

Lemma naive_top_length k ls : (k ≤ length ls)%nat → length (naive_top k ls) = k.
Proof.
  intros Hk. unfold naive_top.
  rewrite length_drop, (Permutation_length (merge_sort_Permutation _ _)). lia.
Qed.

(** * The offline selectors *)

Section OfflineFacts.
Context `{STL : StdAlgorithms} {contracts : StdContracts STL}.

Lemma top_count_le n : (top_count n ≤ n)%nat.
Proof.
  unfold top_count. destruct n as [|n]; [done|].
  apply Nat.Div0.div_le_upper_bound. lia.
Qed.

Lemma topCount_fits (players : list Player) :
  fits players →
  wrap (vector_size players + 9) / 10 = N.of_nat (top_count (length players)).
Proof.
  intros Hfit%fits_lt. rewrite wrap_small by lia.
  unfold top_count, vector_size. rewrite Nat2N.inj_div. f_equal. lia.
Qed.

Lemma iter_sub_ok last k : k ≤ last → iter_sub last k = Ok (last - k).
Proof. intros Hk. unfold iter_sub. by destruct (N.leb_spec k last); [|lia]. Qed.

Lemma quickSelectRank_spec (players : list Player) :
  fits players →
  ∃ r players', Offline.quickSelectRank players = Ok (r, players') ∧
                top_decile_of players r players'.
Proof.
  intros Hfit. unfold Offline.quickSelectRank.
  rewrite topCount_fits by done.
  pose proof (top_count_le (length players)) as Hle.
  set (k := top_count (length players)) in *.
  rewrite iter_sub_ok by (unfold vector_size; lia). simpl.
  unfold nth_element.
  destruct (N.leb_spec (vector_size players - N.of_nat k) (vector_size players)); [|lia].
  simpl. set (nth := N.to_nat (vector_size players - N.of_nat k)).
  assert (Hnth : nth = (length players - k)%nat) by (unfold nth, vector_size; lia).
  assert (Hperm := nth_element_perm player_lt players nth player_lt_swo ltac:(lia)).
  set (players' := std_nth_element player_lt players nth) in *.
  assert (Hsize : vector_size players' = vector_size players).
  { unfold vector_size. by rewrite Hperm. }
  rewrite Hsize, iter_sub_ok by (unfold vector_size; lia). simpl. fold nth.
  eexists _, _. split; [done|].
  split_and!; simpl; [done|done|by apply sort_sorted, player_lt_swo|].
  exists (take nth players'), (drop nth players'). split_and!.
  - split; [by rewrite take_drop|].
    intros a b [i [Ha Hi]]%elem_of_take [j Hb]%list_elem_of_lookup.
    rewrite lookup_drop in Hb.
    pose proof (nth_element_partition player_lt players nth i (nth + j) a b
      player_lt_swo ltac:(lia) Hi ltac:(lia) Ha Hb). level_lia.
  - apply sort_perm, player_lt_swo.
  - rewrite length_drop, Hperm. lia.
Qed.

(** The loop of [heapRank] keeps a heap in front of the players it has
    extracted, none of which is below a player of the heap. *)
Lemma heapRank_loop_spec fuel (k i : nat) (heap done top : list Player) :
  fits (heap ++ done) →
  (i ≤ k)%nat → (k ≤ length (heap ++ done))%nat → (k - i < fuel)%nat →
  length done = i → is_heap player_lt heap →
  (∀ a b, a ∈ heap → b ∈ done → level_ a ≤ level_ b) →
  top ≡ₚ done →
  ∃ heap' done' top',
    Offline.heapRank_loop fuel (N.of_nat k) (N.of_nat i) (heap ++ done) top
      = Ok (heap' ++ done', top') ∧
    heap' ++ done' ≡ₚ heap ++ done ∧ top' ≡ₚ done' ∧ length done' = k ∧
    (∀ a b, a ∈ heap' → b ∈ done' → level_ a ≤ level_ b).
Proof.
  revert i heap done top.
  induction fuel as [|fuel IH]; intros i heap done top Hfit Hik Hk Hfuel Hdone Hheap Hle Htop;
    [lia|]. simpl.
  destruct (N.ltb_spec (N.of_nat i) (N.of_nat k)) as [Hlt|Hge].
  2: { exists heap, done, top. assert (i = k) by lia. by subst k. }
  pose proof (fits_lt _ Hfit) as Hsize. unfold vector_size in Hsize.
  rewrite length_app in Hk, Hsize.
  rewrite iter_sub_ok by (unfold vector_size; rewrite length_app; lia). simpl.
  replace (N.to_nat (vector_size (heap ++ done) - N.of_nat i)) with (length heap)
    by (unfold vector_size; rewrite length_app; lia).
  rewrite take_app_length, drop_app_length.
  destruct heap as [|x heap]; [simpl in *; lia|].
  unfold pop_heap. rewrite is_heapb_true by done.
  destruct (pop_heap_spec player_lt x heap player_lt_swo Hheap) as (h & -> & Hh & Hheap').
  simpl.
  assert (Hlen : length h = length heap) by by rewrite Hh.
  assert (Hat : at_ ((h ++ [x]) ++ done)
            (size_sub (size_sub (vector_size ((h ++ [x]) ++ done)) 1) (N.of_nat i)) = Ok x).
  { rewrite !size_sub_small by (rewrite ?size_sub_small; size_lia). unfold at_.
    rewrite <-app_assoc. simpl.
    by rewrite list_lookup_middle by size_lia. }
  rewrite Hat. simpl. rewrite wrap_small by size_lia.
  replace (N.of_nat i + 1) with (N.of_nat (S i)) by lia.
  rewrite <-app_assoc. simpl.
  destruct (IH (S i) h (x :: done) (top ++ [x])) as (heap' & done' & top' & Hrun & Hperm & ? & ? & ?).
  - eapply fits_perm; [|done]. by rewrite Hh, <-Permutation_middle.
  - lia.
  - rewrite length_app. simpl in *. lia.
  - lia.
  - simpl. lia.
  - done.
  - intros a b Ha [->|Hb]%elem_of_cons.
    + rewrite Hh in Ha.
      pose proof (heap_root player_lt x heap a player_lt_swo Hheap ltac:(set_solver)).
      level_lia.
    + apply Hle; [|done]. rewrite Hh in Ha. set_solver.
  - by rewrite Htop, <-Permutation_cons_append.
  - exists heap', done', top'. split_and!; try done.
    by rewrite Hperm, Hh, <-Permutation_middle.
Qed.

Lemma heapRank_spec (players : list Player) :
  fits players →
  ∃ r players', Offline.heapRank players = Ok (r, players') ∧
                top_decile_of players r players'.
Proof.
  intros Hfit. unfold Offline.heapRank.
  rewrite topCount_fits by done.
  pose proof (top_count_le (length players)) as Hle.
  set (k := top_count (length players)) in *.
  assert (Hperm := make_heap_perm player_lt players player_lt_swo).
  destruct (heapRank_loop_spec (S (N.to_nat (N.of_nat k))) k 0
    (std_make_heap player_lt players) [] []) as (heap & done & top & Hrun & Hp & Htop & Hlen & Hsel).
  - rewrite app_nil_r. by eapply fits_perm.
  - lia.
  - rewrite app_nil_r, Hperm. lia.
  - lia.
  - done.
  - apply make_heap_heap, player_lt_swo.
  - set_solver.
  - done.
  - rewrite app_nil_r in Hrun. change (N.of_nat 0) with 0 in Hrun.
    rewrite Hrun. simpl. eexists _, _. split; [done|].
    rewrite app_nil_r in Hp.
    split_and!; simpl; [by rewrite Hp|done|by apply sort_sorted, player_lt_swo|].
    exists heap, done. split_and!; [split; [by rewrite Hp|done]| |done].
    by rewrite (sort_perm _ _ player_lt_swo).
Qed.

Lemma top_decile_levels players r players' :
  top_decile_of players r players' →
  levels (top_ r) = naive_top (top_count (length players)) (levels players).
Proof.
  intros (_ & _ & Hsorted & rest & sel & Hsel & Htop & <-).
  by eapply selects_naive_top.
Qed.

Lemma top_decile_baseline players r players' :
  top_decile_of players r players' →
  let k := ((length players + 9) / 10)%nat in
  length (top_ r) = k ∧ ascending (levels (top_ r)) ∧
  levels (top_ r) ≡ₚ naive_top k (levels players).
Proof.
  intros Htop k. pose proof (top_decile_levels _ _ _ Htop) as Heq.
  fold (top_count (length players)) in k. subst k. split_and!.
  - rewrite <-(length_fmap level_). fold (levels (top_ r)). rewrite Heq.
    apply naive_top_length. unfold levels. rewrite length_fmap. apply top_count_le.
  - rewrite Heq. apply naive_top_ascending.
  - by rewrite Heq.
Qed.

(** C1: on every vector of N players, [quickSelectRank] and [heapRank]
    each return a result whose [top_] has length (N + 9) / 10, is sorted
    ascending by level, and has the levels of the (N + 9) / 10 largest
    of the input, as a naive full sort gives them. *)
Theorem offline_selectors_return_top_decile (players : list Player) :
  fits players →
  let k := ((length players + 9) / 10)%nat in
  ∃ r1 v1 r2 v2,
    Offline.quickSelectRank players = Ok (r1, v1) ∧
    Offline.heapRank players = Ok (r2, v2) ∧
    (length (top_ r1) = k ∧ ascending (levels (top_ r1)) ∧
     levels (top_ r1) ≡ₚ naive_top k (levels players)) ∧
    (length (top_ r2) = k ∧ ascending (levels (top_ r2)) ∧
     levels (top_ r2) ≡ₚ naive_top k (levels players)).
Proof.
  intros Hfit k.
  destruct (quickSelectRank_spec players Hfit) as (r1 & v1 & Hq & Htop1).
  destruct (heapRank_spec players Hfit) as (r2 & v2 & Hh & Htop2).
  exists r1, v1, r2, v2.
  split_and!; [done|done|by eapply top_decile_baseline..].
Qed.

(** C5: on copies of one vector, [quickSelectRank] and [heapRank] return
    [top_] sequences with the same levels, as multisets and as sequences. *)
Theorem offline_selectors_agree (players : list Player) :
  fits players →
  ∃ r1 v1 r2 v2,
    Offline.quickSelectRank players = Ok (r1, v1) ∧
    Offline.heapRank players = Ok (r2, v2) ∧
    levels (top_ r1) ≡ₚ levels (top_ r2) ∧
    levels (top_ r1) = levels (top_ r2).
Proof.
  intros Hfit.
  destruct (quickSelectRank_spec players Hfit) as (r1 & v1 & Hq & Htop1).
  destruct (heapRank_spec players Hfit) as (r2 & v2 & Hh & Htop2).
  exists r1, v1, r2, v2.
  apply top_decile_levels in Htop1, Htop2.
  split_and!; [done|done|by rewrite Htop1, Htop2..].
Qed.

End OfflineFacts.

Lemma offline_selectors_return_top_decile_witness :
  let players := players_of [5; 1; 4; 2; 8; 7; 3; 6; 9; 10; 11] in
  ∃ r1 v1 r2 v2,
    Offline.quickSelectRank players = Ok (r1, v1) ∧
    Offline.heapRank players = Ok (r2, v2) ∧
    (length (top_ r1) = 2%nat ∧ ascending (levels (top_ r1)) ∧
     levels (top_ r1) ≡ₚ naive_top 2 (levels players)) ∧
    (length (top_ r2) = 2%nat ∧ ascending (levels (top_ r2)) ∧
     levels (top_ r2) ≡ₚ naive_top 2 (levels players)).
Proof.
  apply (offline_selectors_return_top_decile (contracts := reference_contracts)
           (players_of [5; 1; 4; 2; 8; 7; 3; 6; 9; 10; 11])).
  by vm_compute.
Defined.

Lemma offline_selectors_agree_witness :
  let players := players_of [50; 10; 90; 30; 70; 20; 60; 40; 80; 100; 100] in
  ∃ r1 v1 r2 v2,
    Offline.quickSelectRank players = Ok (r1, v1) ∧
    Offline.heapRank players = Ok (r2, v2) ∧
    levels (top_ r1) ≡ₚ levels (top_ r2) ∧
    levels (top_ r1) = levels (top_ r2).
Proof.
  apply (offline_selectors_agree (contracts := reference_contracts)
           (players_of [50; 10; 90; 30; 70; 20; 60; 40; 80; 100; 100])).
  by vm_compute.
Defined.

(** * The bounded min-heap maintainer *)

Section HeapFacts.
Import Online.
Implicit Types (a : list Player) (i j m : nat).
#[local] Arguments Nat.mul : simpl never.
#[local] Arguments N.mul : simpl never.

Lemma at_lookup a j p : a !! j = Some p → at_ a (N.of_nat j) = Ok p.
Proof. unfold at_. rewrite Nat2N.id. by intros ->. Qed.

Lemma smaller_of_pick a (c s : nat) :
  (s < length a)%nat →
  smaller_of (vector_size a) a (N.of_nat c) (N.of_nat s) = Ok (N.of_nat (pick a c s)).
Proof.
  intros Hs. unfold smaller_of, pick.
  destruct (lookup_lt_is_Some_2 a s Hs) as [x Hx]. rewrite Hx.
  destruct (N.ltb_spec (N.of_nat c) (vector_size a)) as [Hc|Hc].
  - destruct (lookup_lt_is_Some_2 a c) as [l Hl]; [size_lia|].
    rewrite Hl, (at_lookup _ _ _ Hl), (at_lookup _ _ _ Hx). simpl.
    by destruct (player_lt l x).
  - rewrite (lookup_ge_None_2 a c) by size_lia. done.
Qed.

Lemma pick_lt a c s : (s < length a)%nat → (pick a c s < length a)%nat.
Proof.
  intros Hs. unfold pick. destruct (a !! c) eqn:Hc; [|done].
  apply lookup_lt_Some in Hc. by repeat case_match.
Qed.

(** The smallest of the elements at [i], [l] and [r]. *)
Lemma pick_smallest a i l r (m := pick a r (pick a l i)) :
  (m = i ∨ m = l ∨ m = r) ∧
  ∀ j x y, j = i ∨ j = l ∨ j = r →
    a !! m = Some x → a !! j = Some y → level_ x ≤ level_ y.
Proof.
  subst m. unfold pick.
  destruct (a !! i) as [xi|] eqn:Hi, (a !! l) as [xl|] eqn:Hl, (a !! r) as [xr|] eqn:Hr;
    repeat (case_match; simplify_eq); (split; [tauto|]);
    intros j x y [-> | [-> | ->]] Hx Hy; simplify_eq; level_lia.
Qed.

Lemma swap_run a i m x y :
  a !! i = Some x → a !! m = Some y →
  swap a (N.of_nat i) (N.of_nat m) = Ok (<[m := x]> (<[i := y]> a)).
Proof.
  intros Hx Hy. unfold swap.
  rewrite (at_lookup _ _ _ Hx), (at_lookup _ _ _ Hy). simpl. by rewrite !Nat2N.id.
Qed.

Lemma swap_lookup a i m x y j :
  a !! i = Some x → a !! m = Some y →
  <[m := x]> (<[i := y]> a) !! j =
    if decide (j = m) then Some x else if decide (j = i) then Some y else a !! j.
Proof.
  intros Hx%lookup_lt_Some Hy%lookup_lt_Some.
  repeat case_decide; subst.
  - by rewrite list_lookup_insert_eq by (by rewrite length_insert).
  - by rewrite list_lookup_insert_ne, list_lookup_insert_eq.
  - by rewrite !list_lookup_insert_ne.
Qed.

Lemma swap_perm a i m x y :
  a !! i = Some x → a !! m = Some y → <[m := x]> (<[i := y]> a) ≡ₚ a.
Proof.
  intros Hx Hy. apply Permutation_inj. split; [by rewrite !length_insert|].
  exists (λ j, if decide (j = m) then i else if decide (j = i) then m else j).
  split.
  - intros j1 j2. repeat case_decide; lia.
  - intros j. rewrite (swap_lookup a i m x y) by done.
    repeat case_decide; by subst.
Qed.

Lemma min_heap_le a j p c :
  is_heap player_gt a → (0 < j)%nat →
  a !! parent j = Some p → a !! j = Some c → level_ p ≤ level_ c.
Proof. intros Hheap Hj Hp Hc. pose proof (Hheap j p c Hj Hp Hc). level_lia. Qed.

(** Nothing is out of place in an almost-heap whose element at [i] is not
    above its children. *)
Lemma almost_heap_done a i :
  almost_heap a i → pick a (2 * i + 2) (pick a (2 * i + 1) i) = i →
  is_heap player_gt a.
Proof.
  intros [Hedges _] Hm j p c Hj Hp Hc.
  destruct (pick_smallest a i (2 * i + 1) (2 * i + 2)) as [_ Hsmall].
  rewrite Hm in Hsmall.
  assert (level_ p ≤ level_ c); [|level_lia].
  destruct (decide (parent j = i)) as [Hpar|Hpar].
  - rewrite Hpar in Hp. apply (Hsmall j p c); [unfold parent in Hpar; lia|done..].
  - by apply (Hedges j).
Qed.

(** A swap with the smallest child moves the place of the exception to
    that child. *)
Lemma almost_heap_swap a i x y (m := pick a (2 * i + 2) (pick a (2 * i + 1) i)) :
  almost_heap a i → m ≠ i → a !! i = Some x → a !! m = Some y →
  almost_heap (<[m := x]> (<[i := y]> a)) m.
Proof.
  intros [Hedges Hgrand] Hm Hx Hy.
  destruct (pick_smallest a i (2 * i + 1) (2 * i + 2)) as [Hcases Hsmall].
  fold m in Hcases, Hsmall.
  assert (Hpar : parent m = i) by (unfold parent; lia).
  split.
  - intros j p c Hj Hne. rewrite !(swap_lookup a i m x y) by done.
    destruct (decide (j = m)) as [->|Hjm].
    { rewrite Hpar. repeat case_decide; try lia. intros [= <-] [= <-].
      apply (Hsmall i); auto. }
    destruct (decide (j = i)) as [->|Hji].
    { repeat case_decide; try (unfold parent in *; lia).
      intros Hp [= <-]. apply (Hgrand m); [lia|done..]. }
    case_decide; [done|]. case_decide as Hpj.
    + intros [= <-] Hc. apply (Hsmall j); [unfold parent in Hpj; lia|done..].
    + intros Hp Hc. by apply (Hedges j).
  - intros j g c _ Hjm. rewrite !(swap_lookup a i m x y), Hpar by done.
    repeat case_decide; try (unfold parent in *; lia).
    intros [= <-] Hc. apply (Hedges j); [unfold parent in *; lia|lia|by rewrite Hjm|done].
Qed.

Lemma percolate_spec fuel a i :
  fits a → (i < length a)%nat → (length a - i ≤ fuel)%nat →
  ∃ a', percolate fuel (vector_size a) a (N.of_nat i) = Ok a' ∧ a' ≡ₚ a ∧
        (almost_heap a i → is_heap player_gt a').
Proof.
  revert a i. induction fuel as [|fuel IH]; intros a i Hfit Hi Hfuel; [lia|].
  simpl. rewrite !wrap_small by size_lia.
  replace (2 * N.of_nat i + 1) with (N.of_nat (2 * i + 1)) by lia.
  replace (2 * N.of_nat i + 2) with (N.of_nat (2 * i + 2)) by lia.
  rewrite smaller_of_pick by done. simpl.
  rewrite smaller_of_pick by by apply pick_lt. simpl.
  pose proof (pick_lt a (2 * i + 2) _ (pick_lt a (2 * i + 1) i Hi)) as Hm.
  destruct (pick_smallest a i (2 * i + 1) (2 * i + 2)) as [Hcases _].
  set (m := pick a (2 * i + 2) (pick a (2 * i + 1) i)) in *.
  destruct (N.eqb_spec (N.of_nat m) (N.of_nat i)) as [Heq|Hne].
  { exists a. split_and!; [done..|]. intros Halmost.
    apply (almost_heap_done a i); [done|]. fold m. lia. }
  destruct (lookup_lt_is_Some_2 a i Hi) as [x Hx].
  destruct (lookup_lt_is_Some_2 a m Hm) as [y Hy].
  rewrite (swap_run a i m x y) by done. simpl.
  pose proof (swap_perm a i m x y Hx Hy) as Hperm.
  set (a1 := <[m := x]> (<[i := y]> a)) in *.
  assert (Hsize : vector_size a1 = vector_size a).
  { unfold vector_size. by rewrite Hperm. }
  destruct (IH a1 m) as (a' & Hrun & Hperm' & Hheap).
  - by eapply fits_perm.
  - by rewrite Hperm.
  - rewrite Hperm. lia.
  - rewrite Hsize in Hrun. exists a'. split_and!; [done|by rewrite Hperm'|].
    intros Halmost. apply Hheap. apply almost_heap_swap; [done|fold m; lia|done..].
Qed.

(** [replaceMin] returns on every range: the loop does not run out of
    fuel, and nothing is read outside the range. *)
Lemma replaceMin_nonempty root rest target :
  fits (root :: rest) →
  ∃ heap', replaceMin (root :: rest) target = Ok (heap', MovedFrom) ∧
           heap' ≡ₚ target :: rest ∧
           (is_heap player_gt (root :: rest) → is_heap player_gt heap').
Proof.
  intros Hfit.
  destruct (percolate_spec (S (length rest)) (target :: rest) 0)
    as (a' & Hrun & Hperm & Hheap); [done|simpl; lia..|].
  change (replaceMin (root :: rest) target) with
    (percolate (S (length rest)) (vector_size (target :: rest)) (target :: rest)
       (N.of_nat 0) ≫= λ range, mret (range, MovedFrom)).
  rewrite Hrun. exists a'. split_and!; [done..|].
  intros Hroot. apply Hheap. split; [|lia].
  intros j p c Hj Hpar Hp Hc. apply (min_heap_le (root :: rest) j); [done..| |].
  - by destruct (parent j).
  - by destruct j.
Qed.

End HeapFacts.

(** * The streaming tracker *)

(** The least level of a sorted sequence is its first. *)
Lemma head_sorted_min (ls : list size_t) x :
  StronglySorted N.le ls → x ∈ ls → (∀ y, y ∈ ls → x ≤ y) → head ls = Some x.
Proof.
  intros Hsorted Hin Hmin. destruct ls as [|z ls]; [by apply elem_of_nil in Hin|].
  simpl. f_equal. apply StronglySorted_cons in Hsorted as [Hall _].
  apply N.le_antisymm; [|apply Hmin; left].
  apply elem_of_cons in Hin as [->|Hin]; [done|].
  by apply (proj1 (Forall_forall _ _) Hall).
Qed.

(** The root of a min-heap is at the least level of the heap. *)
Lemma min_heap_root root h y :
  is_heap player_gt (root :: h) → y ∈ root :: h → level_ root ≤ level_ y.
Proof.
  intros Hheap Hy.
  pose proof (heap_root player_gt root h y player_gt_swo Hheap Hy). level_lia.
Qed.

(** The root of a heap that holds a selection is at the least level of the
    baseline. *)
Lemma selects_root_cutoff seen rest root h :
  selects seen rest (root :: h) → is_heap player_gt (root :: h) →
  head (naive_top (length (root :: h)) (levels seen)) = Some (level_ root).
Proof.
  intros [Hperm Hle] Hheap.
  rewrite <-(length_fmap level_ (root :: h)).
  rewrite (naive_top_split (levels rest) (levels (root :: h))).
  - apply head_sorted_min; [apply merge_sort_le_sorted|..].
    + rewrite merge_sort_Permutation. unfold levels. simpl. left.
    + intros y. rewrite merge_sort_Permutation.
      intros [p [-> Hp]]%list_elem_of_fmap. by eapply min_heap_root.
  - unfold levels. by rewrite Hperm, fmap_app.
  - intros a b [a' [-> Ha]]%list_elem_of_fmap [b' [-> Hb]]%list_elem_of_fmap. eauto.
Qed.

(** A player above the root takes the place of the root in the selection. *)
Lemma selects_admit seen rest root h next heap' :
  selects seen rest (root :: h) → (∀ y, y ∈ root :: h → level_ root ≤ level_ y) →
  level_ root < level_ next → heap' ≡ₚ next :: h →
  selects (seen ++ [next]) (root :: rest) heap'.
Proof.
  intros [Hperm Hle] Hroot Hnext Hheap. split.
  - rewrite Hheap, Hperm, <-Permutation_cons_append. solve_Permutation.
  - intros a b Ha Hb. rewrite Hheap in Hb.
    assert (level_ root ≤ level_ b).
    { apply elem_of_cons in Hb as [->|Hb]; [lia|]. apply Hroot. by right. }
    apply elem_of_cons in Ha as [->|Ha]; [done|].
    transitivity (level_ root); [|done]. apply Hle; [done|left].
Qed.

(** A player not above the root leaves the selection as it is. *)
Lemma selects_discard seen rest root h next :
  selects seen rest (root :: h) → (∀ y, y ∈ root :: h → level_ root ≤ level_ y) →
  level_ next ≤ level_ root →
  selects (seen ++ [next]) (next :: rest) (root :: h).
Proof.
  intros [Hperm Hle] Hroot Hnext. split.
  - by rewrite Hperm, <-Permutation_cons_append.
  - intros a b [->|Ha]%elem_of_cons Hb; [|by apply Hle].
    transitivity (level_ root); [done|by apply Hroot].
Qed.

Lemma cutoff_at_app interval seen more c :
  c ≤ vector_size seen → cutoff_at interval (seen ++ more) c = cutoff_at interval seen c.
Proof.
  intros Hc. unfold cutoff_at. by rewrite take_app_le by size_lia.
Qed.

Lemma cutoff_at_root interval seen rest root h :
  selects seen rest (root :: h) → is_heap player_gt (root :: h) →
  length (root :: h) = (N.to_nat interval `min` length seen)%nat →
  cutoff_at interval seen (vector_size seen) = Some (level_ root).
Proof.
  intros Hsel Hheap Hlen. unfold cutoff_at, vector_size.
  rewrite Nat2N.id, firstn_all.
  replace (N.to_nat (N.min interval (N.of_nat (length seen)))) with (length (root :: h)) by lia.
  by eapply selects_root_cutoff.
Qed.

(** One more player read: the heap [heap'] that holds the new selection,
    and the cutoff recorded or not by the count. *)
Lemma tracked_step interval seen next h cutoffs rest' root' h' :
  tracked interval seen h cutoffs →
  is_heap player_gt (root' :: h') →
  selects (seen ++ [next]) rest' (root' :: h') →
  length (root' :: h') = (N.to_nat interval `min` length (seen ++ [next]))%nat →
  let count := vector_size (seen ++ [next]) in
  tracked interval (seen ++ [next]) (root' :: h')
    (if count mod interval =? 0 then <[count := level_ root']> cutoffs else cutoffs).
Proof.
  intros Htracked Hheap Hsel Hlen count.
  assert (Hcount : count = vector_size seen + 1) by (subst count; size_lia).
  assert (Hold : ∀ c v, cutoffs !! c = Some v →
            milestone interval count c ∧ cutoff_at interval (seen ++ [next]) c = Some v).
  { intros c v [[Hc Hmod] Hat]%(tracked_sound _ _ _ _ Htracked).
    split; [split; [lia|done]|]. rewrite cutoff_at_app by lia. done. }
  pose proof (cutoff_at_root _ _ _ _ _ Hsel Hheap Hlen) as Hroot. fold count in Hroot.
  split; [done|by eexists|done|..].
  - intros c v. destruct (N.eqb_spec (count mod interval) 0) as [Hmod|Hmod]; [|by apply Hold].
    rewrite lookup_insert. case_decide as Hc; [|by apply Hold].
    intros [= <-]. subst c. split; [split; [lia|done]|done].
  - intros c [Hc Hmod].
    destruct (N.eqb_spec (count mod interval) 0) as [Hz|Hnz].
    + rewrite lookup_insert. case_decide; [by eexists|].
      apply (tracked_complete _ _ _ _ Htracked). split; [lia|done].
    + apply (tracked_complete _ _ _ _ Htracked). split; [|done].
      assert (c ≠ count) by congruence. lia.
Qed.

Section OnlineFacts.
Context `{STL : StdAlgorithms} {contracts : StdContracts STL}.
Context `{SC : StreamContract Src}.
Import Online.

(** What a stream does next, by the players it has yet to produce. *)
Lemma stream_next (s : Src) : valid s →
  match upcoming s with
  | [] => remaining s = 0
  | p :: l =>
      0 < remaining s ∧
      ∃ s', nextPlayer s = (Ok p, s') ∧ valid s' ∧ upcoming s' = l
  end.
Proof.
  intros Hs. pose proof (remaining_counts s Hs) as Hrem.
  destruct (upcoming s) as [|p l] eqn:Hup; [done|].
  split; [rewrite Hrem; size_lia|]. by apply nextPlayer_yields.
Qed.

Lemma obind_ok {A B} (x : outcome A) a (f : A → outcome B) :
  x = Ok a → x ≫= f = f a.
Proof. by intros ->. Qed.

Lemma size_mod_ok a b : 0 < b → size_mod a b = Ok (a mod b).
Proof. intros Hb. unfold size_mod. by destruct (N.eqb_spec b 0); [lia|]. Qed.

(** The body of the second loop keeps the buffer a heap of the largest
    players read. *)
Lemma process_player_spec interval seen next h cutoffs :
  tracked interval seen h cutoffs → 0 < interval →
  (N.to_nat interval ≤ length seen)%nat → fits seen →
  ∃ h' cutoffs',
    process_player interval h cutoffs (vector_size (seen ++ [next])) next
      = Ok (h', cutoffs') ∧
    tracked interval (seen ++ [next]) h' cutoffs'.
Proof.
  intros Htracked Hpos Hfull Hfit.
  pose proof (tracked_length _ _ _ _ Htracked) as Hlen.
  pose proof (tracked_heap _ _ _ _ Htracked) as Hheap.
  destruct (tracked_selects _ _ _ _ Htracked) as [rest Hsel].
  destruct h as [|root h]; [simpl in Hlen; lia|].
  assert (Hroot : ∀ y, y ∈ root :: h → level_ root ≤ level_ y).
  { intros y. by apply min_heap_root. }
  assert (Hstep : ∃ root' h' rest',
    (if level_ root <? level_ next
     then '(topPlayers, _) ← replaceMin (root :: h) next; mret topPlayers
     else mret (root :: h)) = Ok (root' :: h') ∧
    is_heap player_gt (root' :: h') ∧
    selects (seen ++ [next]) rest' (root' :: h') ∧
    length (root' :: h') = length (root :: h)).
  { destruct (N.ltb_spec (level_ root) (level_ next)) as [Hlt|Hge].
    - destruct (replaceMin_nonempty root h next) as (heap' & -> & Hperm & Hheap').
      { unfold fits, vector_size in *. lia. }
      simpl. destruct heap' as [|root' h'].
      { apply Permutation_length in Hperm. done. }
      exists root', h', (root :: rest).
      split_and!; [done|by apply Hheap'| |by apply Permutation_length in Hperm].
      by eapply selects_admit.
    - exists root, h, (next :: rest). split_and!; [done..| |done].
      by apply selects_discard. }
  destruct Hstep as (root' & h' & rest' & Hrun & Hheap' & Hsel' & Hlen').
  unfold process_player.
  rewrite (obind_ok (front (root :: h)) root) by done.
  rewrite (obind_ok _ _ _ Hrun), (obind_ok _ _ _ (size_mod_ok _ _ Hpos)).
  set (count := vector_size (seen ++ [next])).
  exists (root' :: h'),
    (if count mod interval =? 0 then <[count := level_ root']> cutoffs else cutoffs).
  split.
  - by destruct (_ =? 0).
  - apply (tracked_step interval seen next (root :: h) cutoffs rest' root' h');
      [done..|].
    rewrite Hlen', Hlen, length_app. simpl. lia.
Qed.

(** The first loop reads players while it may and the stream has some. *)
Lemma prime_spec fuel interval (l : list Player) :
  ∀ s tr top count,
    valid s → upcoming s = l → (length l < fuel)%nat →
    count ≤ interval → count + vector_size l < 2 ^ 64 →
    let k := (N.to_nat (interval - count) `min` length l)%nat in
    ∃ w, prime fuel interval top count (mkWorld s tr)
           = (Ok (top ++ take k l, count + N.of_nat k), w) ∧
         valid (stream w) ∧ upcoming (stream w) = drop k l.
Proof.
  revert fuel. induction l as [|p l IH]; intros fuel s tr top count Hwf Hpend Hfuel Hcount Hsize k.
  - pose proof (stream_next s Hwf) as Hstep. rewrite Hpend in Hstep.
    destruct fuel as [|fuel]; [simpl in *; lia|].
    subst k. rewrite Nat.min_0_r. simpl. rewrite app_nil_r, N.add_0_r.
    destruct (count <? interval); [|by eexists].
    unfold mbind, M_bind, call_remaining. simpl. rewrite Hstep. simpl. by eexists.
  - pose proof (stream_next s Hwf) as Hstep. rewrite Hpend in Hstep.
    destruct Hstep as (Hrem & s' & Hnext & Hwf' & Hpend').
    destruct fuel as [|fuel]; [simpl in *; lia|]. simpl.
    destruct (N.ltb_spec count interval) as [Hlt|Hge].
    2: { subst k. replace (N.to_nat (interval - count)) with 0%nat by lia.
         simpl. rewrite app_nil_r, N.add_0_r. by eexists. }
    unfold mbind at 1, M_bind at 1, call_remaining. simpl.
    destruct (N.ltb_spec 0 (remaining s)) as [_|]; [|lia].
    unfold mbind at 1, M_bind at 1, call_nextPlayer. simpl. rewrite Hnext.
    rewrite wrap_small by size_lia.
    destruct (IH fuel s' ((tr ++ [CallRemaining (remaining s)]) ++ [CallNextPlayer])
                (top ++ [p]) (count + 1)) as (w & Hrun & Hwfw & Hpendw);
      [done|done|simpl in *; lia|lia|size_lia|].
    rewrite Hrun. exists w.
    subst k. replace (N.to_nat (interval - count)) with (S (N.to_nat (interval - (count + 1)))) by lia.
    simpl. split_and!; [|done..].
    do 3 f_equal; [by rewrite <-app_assoc|lia].
Qed.

(** The second loop reads the stream to its end. *)
Lemma process_spec fuel interval (l : list Player) :
  ∀ s tr seen h cutoffs,
    valid s → upcoming s = l → (length l < fuel)%nat →
    tracked interval seen h cutoffs → 0 < interval →
    (l = [] ∨ N.to_nat interval ≤ length seen)%nat → fits (seen ++ l) →
    ∃ h' cutoffs' w,
      process fuel interval h cutoffs (vector_size seen) (mkWorld s tr)
        = (Ok (h', cutoffs', vector_size (seen ++ l)), w) ∧
      remaining (stream w) = 0 ∧ tracked interval (seen ++ l) h' cutoffs'.
Proof.
  revert fuel. induction l as [|p l IH];
    intros fuel s tr seen h cutoffs Hwf Hpend Hfuel Htracked Hpos Hfull Hfit.
  - pose proof (stream_next s Hwf) as Hstep. rewrite Hpend in Hstep.
    destruct fuel as [|fuel]; [simpl in *; lia|]. simpl.
    unfold mbind, M_bind, call_remaining. simpl. rewrite Hstep. simpl.
    rewrite app_nil_r. by eexists _, _, _.
  - pose proof (stream_next s Hwf) as Hstep. rewrite Hpend in Hstep.
    destruct Hstep as (Hrem & s' & Hnext & Hwf' & Hpend').
    destruct Hfull as [|Hfull]; [done|].
    destruct fuel as [|fuel]; [simpl in *; lia|]. simpl.
    unfold mbind at 1, M_bind at 1, call_remaining. simpl.
    destruct (N.ltb_spec 0 (remaining s)) as [_|]; [|lia].
    unfold mbind at 1, M_bind at 1, call_nextPlayer. simpl. rewrite Hnext.
    rewrite wrap_small by size_lia.
    destruct (process_player_spec interval seen p h cutoffs) as (h1 & cutoffs1 & Hbody & Htracked1);
      [done..|size_lia|].
    replace (vector_size seen + 1) with (vector_size (seen ++ [p])) by size_lia.
    unfold mbind at 1, M_bind at 1, lift. rewrite Hbody.
    destruct (IH fuel s' ((tr ++ [CallRemaining (remaining s)]) ++ [CallNextPlayer])
                (seen ++ [p]) h1 cutoffs1) as (h' & cutoffs' & w & Hrun & Hend & Hfinal);
      [done|done|simpl in *; lia|done|done| |by rewrite <-app_assoc|].
    { right. rewrite length_app. lia. }
    rewrite <-!app_assoc in *. simpl in *. rewrite Hrun. by eexists _, _, _.
Qed.

Lemma M_bind_ok {A B} (m : M Src A) (f : A → M Src B) w a w' :
  m w = (Ok a, w') → (m ≫= f) w = f a w'.
Proof. unfold mbind, M_bind. by intros ->. Qed.

(** The buffer after the first loop and [make_heap], and the first cutoff. *)
Lemma primed_tracked interval (l : list Player)
    (k := (N.to_nat interval `min` length l)%nat)
    (h := std_make_heap player_gt (take k l)) :
  0 < interval →
  ∃ cutoffs,
    (∀ w : World Src,
       (if N.of_nat k =? interval
        then lift (record_cutoff h ∅ (N.of_nat k)) else mret ∅) w = (Ok cutoffs, w)) ∧
    tracked interval (take k l) h cutoffs.
Proof.
  intros Hpos.
  pose proof (make_heap_perm player_gt (take k l) player_gt_swo) as Hperm.
  pose proof (make_heap_heap player_gt (take k l) player_gt_swo) as Hheap.
  fold h in Hperm, Hheap.
  assert (Htake : length (take k l) = k) by (rewrite length_take; lia).
  assert (Hsel : selects (take k l) [] h).
  { split; [by rewrite Hperm|]. intros a b Ha. by apply elem_of_nil in Ha. }
  assert (Hlen : length h = (N.to_nat interval `min` length (take k l))%nat).
  { rewrite Hperm, Htake. lia. }
  destruct (N.eqb_spec (N.of_nat k) interval) as [Heq|Hne].
  - destruct h as [|root h'] eqn:Hh; [simpl in Hlen; lia|].
    exists (<[N.of_nat k := level_ root]> ∅). split; [done|].
    pose proof (cutoff_at_root _ _ _ _ _ Hsel Hheap Hlen) as Hroot.
    unfold vector_size in Hroot. rewrite Htake in Hroot.
    assert (Hmile : ∀ c, milestone interval (vector_size (take k l)) c ↔ c = N.of_nat k).
    { intros c. unfold milestone, vector_size. rewrite Htake, <-Heq. split.
      - intros [Hc Hmod]. destruct (decide (c = N.of_nat k)) as [|Hck]; [done|].
        rewrite N.mod_small in Hmod by lia. lia.
      - intros ->. split; [lia|]. apply N.Div0.mod_same. }
    split; [done|by eexists|done|..].
    + intros c v. rewrite lookup_insert. case_decide; [|done].
      intros [= <-]. subst c. by rewrite Hmile.
    + intros c ->%Hmile. rewrite lookup_insert_eq. by eexists.
  - exists ∅. split; [done|].
    split; [done|by eexists|done|done|].
    intros c [Hc Hmod]. unfold vector_size in Hc. rewrite Htake in Hc.
    rewrite N.mod_small in Hmod by lia. lia.
Qed.

(** What [rankIncoming] returns, on a stream about to produce the players
    [l]. *)
Lemma rankIncoming_spec fuel interval s tr (l := upcoming s) :
  valid s → 0 < interval → (length l < fuel)%nat →
  ∃ r w,
    rankIncoming fuel interval (mkWorld s tr) = (Ok r, w) ∧
    remaining (stream w) = 0 ∧
    sorted_by player_lt (top_ r) ∧
    (∃ rest h, selects l rest h ∧ top_ r ≡ₚ h ∧
               length h = (N.to_nat interval `min` length l)%nat) ∧
    (∀ c v, cutoffs_ r !! c = Some v → cutoff_at interval l c = Some v) ∧
    (∀ c, is_Some (cutoffs_ r !! c) ↔
          milestone interval (vector_size l) c ∨
          (c = vector_size l ∧ vector_size l mod interval ≠ 0)).
Proof.
  intros Hwf Hpos Hfuel.
  pose proof (upcoming_fits s Hwf) as Hfit. fold l in Hfit.
  set (k := (N.to_nat interval `min` length l)%nat).
  destruct (prime_spec fuel interval l s tr [] 0 Hwf eq_refl Hfuel) as (w1 & Hprime & Hwf1 & Hpend1);
    [lia|size_lia|].
  rewrite N.sub_0_r in Hprime, Hpend1. fold k in Hprime, Hpend1. simpl in Hprime.
  destruct (primed_tracked interval l Hpos) as (cutoffs1 & Hfirst & Htracked1).
  fold k in Hfirst, Htracked1.
  destruct w1 as [s1 tr1]. simpl in Hwf1, Hpend1.
  destruct (process_spec fuel interval (drop k l) s1 tr1 (take k l)
              (std_make_heap player_gt (take k l)) cutoffs1)
    as (h & cutoffs & w & Hprocess & Hend & Htracked); [done|done| |done|done| | |].
  { rewrite length_drop. lia. }
  { destruct (decide (length l ≤ N.to_nat interval)%nat).
    - left. apply drop_ge. lia.
    - right. rewrite length_take. lia. }
  { by rewrite take_drop. }
  rewrite take_drop in Hprocess, Htracked.
  assert (Hcount : vector_size (take k l) = N.of_nat k).
  { unfold vector_size. rewrite length_take. lia. }
  rewrite Hcount in Hprocess.
  set (T := vector_size l) in *.
  pose proof (tracked_length _ _ _ _ Htracked) as Hlen.
  pose proof (tracked_heap _ _ _ _ Htracked) as Hheap.
  destruct (tracked_selects _ _ _ _ Htracked) as [rest Hsel].
  assert (Hfinal : ∃ cutoffs',
    (if negb (T mod interval =? 0)
     then lift (record_cutoff h cutoffs T) else mret cutoffs) w = (Ok cutoffs', w) ∧
    (∀ c v, cutoffs' !! c = Some v → cutoff_at interval l c = Some v) ∧
    (∀ c, is_Some (cutoffs' !! c) ↔
          milestone interval T c ∨ (c = T ∧ T mod interval ≠ 0))).
  { destruct (N.eqb_spec (T mod interval) 0) as [Hmod|Hmod]; simpl.
    - exists cutoffs. split_and!; [done|..].
      + intros c v Hc. by apply (tracked_sound _ _ _ _ Htracked).
      + intros c. split; [|intros [?|[_ ?]]; [by apply (tracked_complete _ _ _ _ Htracked)|done]].
        intros [v Hc]. left. by apply (tracked_sound _ _ _ _ Htracked c v).
    - destruct h as [|root h].
      { simpl in Hlen. assert (T = 0) by (subst T; size_lia).
        destruct Hmod. replace T with 0. apply N.Div0.mod_0_l. }
      exists (<[T := level_ root]> cutoffs). split_and!; [done|..].
      + intros c v. rewrite lookup_insert. case_decide as Hc.
        * intros [= <-]. subst c. by eapply cutoff_at_root.
        * intros Hcv. by apply (tracked_sound _ _ _ _ Htracked).
      + intros c. rewrite lookup_insert. case_decide as Hc.
        * split; [right; by subst|by eexists].
        * split.
          -- intros [v Hcv]. left. by apply (tracked_sound _ _ _ _ Htracked c v).
          -- intros [?|[? _]]; [by apply (tracked_complete _ _ _ _ Htracked)|done]. }
  destruct Hfinal as (cutoffs' & Hlast & Hsound & Hkeys).
  exists (mkRankingResult (std_sort player_lt h) cutoffs'), w.
  split_and!; simpl.
  - unfold rankIncoming.
    rewrite (M_bind_ok _ _ _ _ _ Hprime). cbv beta iota.
    rewrite (M_bind_ok _ _ _ _ _ (Hfirst _)).
    rewrite (M_bind_ok _ _ _ _ _ Hprocess). cbv beta iota.
    unfold mbind at 1, M_bind at 1, lift at 1. rewrite size_mod_ok by done.
    by rewrite (M_bind_ok _ _ _ _ _ Hlast).
  - done.
  - apply sort_sorted, player_lt_swo.
  - exists rest, h. split_and!; [done|apply sort_perm, player_lt_swo|done].
  - done.
  - done.
Qed.

End OnlineFacts.

(** * The claims on the heap maintainer *)

Lemma min_heap_is_heap v : min_heap v ↔ is_heap player_gt v.
Proof.
  split; intros Hheap i p c Hi Hp Hc; pose proof (Hheap i p c Hi Hp Hc); level_lia.
Qed.

(** C6: on a non-empty range that is a min-heap by level, [replaceMin]
    returns, and leaves a min-heap whose players are those of the range
    without its root, with the target. *)
Theorem replaceMin_restores_heap (range : list Player) (target : Player) :
  fits range → range ≠ [] → min_heap range →
  ∃ range' target',
    Online.replaceMin range target = Ok (range', target') ∧
    min_heap range' ∧ range' ≡ₚ target :: tail range.
Proof.
  intros Hfit Hne Hheap. destruct range as [|root rest]; [done|].
  destruct (replaceMin_nonempty root rest target Hfit) as (heap' & Hrun & Hperm & Hheap').
  exists heap', Online.MovedFrom. split_and!; [done| |done].
  by apply min_heap_is_heap, Hheap', min_heap_is_heap.
Qed.

Lemma replaceMin_restores_heap_witness :
  ∃ range' target',
    Online.replaceMin (players_of [2; 5; 9; 7; 6]) (mkPlayer "next" 8) = Ok (range', target') ∧
    min_heap range' ∧ range' ≡ₚ mkPlayer "next" 8 :: tail (players_of [2; 5; 9; 7; 6]).
Proof.
  apply (replaceMin_restores_heap (players_of [2; 5; 9; 7; 6]) (mkPlayer "next" 8)).
  - by vm_compute.
  - done.
  - apply min_heap_is_heap. intros i p c Hi Hp Hc.
    assert (Hlt : (i < 5)%nat) by by apply lookup_lt_Some in Hc.
    destruct i as [|[|[|[|[|i]]]]]; try lia; by simplify_eq/=.
Defined.

(** C10: on an empty range [replaceMin] returns at once: the range stays
    empty, nothing of it is read or written, and the target is not moved
    from. *)
Theorem replaceMin_empty_range (target : Player) :
  Online.replaceMin [] target = Ok ([], Online.Intact target).
Proof. reflexivity. Qed.

(** * The claims on the vector stream *)

(** C9: a stream made from a vector yields, call after call, the elements
    of the vector in their order; after [k] calls [remaining] is the
    length less [k], and after as many calls as the vector is long it is 0
    and all of the vector has been produced. *)
Theorem vector_stream_yields_in_order (v : list Player) :
  fits v →
  (∀ k, (k ≤ length v)%nat →
     ∃ s, pull k (VectorPlayerStream.make v) = (Ok (take k v), s) ∧
          remaining s = N.of_nat (length v - k)) ∧
  (∃ s, pull (length v) (VectorPlayerStream.make v) = (Ok v, s) ∧
        remaining s = 0 ∧ nextPlayer s = (Err SourceExhausted, s)).
Proof.
  intros Hfit.
  assert (Hpull : ∀ k, (k ≤ length v)%nat →
    pull k (VectorPlayerStream.make v) = (Ok (take k v), VectorPlayerStream.mk v (N.of_nat k)) ∧
    remaining (VectorPlayerStream.mk v (N.of_nat k)) = N.of_nat (length v - k)).
  { intros k Hk. split.
    - apply (StreamFacts.pull_make v k Hfit Hk 0%nat). lia.
    - simpl. rewrite StreamFacts.remaining_wf by (split; simpl; [size_lia|done]).
      simpl. size_lia. }
  split.
  - intros k Hk. eexists. by apply Hpull.
  - destruct (Hpull (length v)) as [Hrun Hrem]; [done|].
    rewrite firstn_all in Hrun. rewrite Nat.sub_diag in Hrem.
    eexists. split_and!; [done..|].
    simpl. unfold VectorPlayerStream.nextPlayer. simpl.
    by destruct (N.leb_spec (vector_size v) (N.of_nat (length v))); [|size_lia].
Qed.

Lemma vector_stream_yields_in_order_witness :
  let v := players_of [5; 9; 2; 8] in
  (∀ k, (k ≤ length v)%nat →
     ∃ s, pull k (VectorPlayerStream.make v) = (Ok (take k v), s) ∧
          remaining s = N.of_nat (length v - k)) ∧
  (∃ s, pull (length v) (VectorPlayerStream.make v) = (Ok v, s) ∧
        remaining s = 0 ∧ nextPlayer s = (Err SourceExhausted, s)).
Proof.
  apply (vector_stream_yields_in_order (players_of [5; 9; 2; 8])). by vm_compute.
Defined.

(** * The claims on the streaming tracker *)

Lemma elem_of_cutoff_keys interval total c :
  0 < interval →
  c ∈ cutoff_keys interval total ↔
  milestone interval total c ∨ (c = total ∧ total mod interval ≠ 0).
Proof.
  intros Hpos. unfold cutoff_keys, milestone.
  rewrite elem_of_union, elem_of_list_to_set, list_elem_of_fmap.
  assert (Hmult : (∃ k, c = N.of_nat k * interval ∧
                        k ∈ seq 1 (N.to_nat (total / interval))) ↔
                  (0 < c ≤ total ∧ c mod interval = 0)).
  { split.
    - intros (k & -> & [Hk1 Hk2]%elem_of_seq). split_and!.
      + nia.
      + transitivity (total / interval * interval); [nia|].
        rewrite N.mul_comm. by apply N.Div0.mul_div_le.
      + apply N.Div0.mod_mul.
    - intros [[Hc1 Hc2] Hmod]. exists (N.to_nat (c / interval)).
      pose proof (N.div_mod c interval ltac:(lia)) as Hdiv. rewrite Hmod in Hdiv.
      pose proof (N.Div0.div_le_mono c total interval Hc2) as Hmono.
      split; [lia|]. apply elem_of_seq.
      assert (0 < c / interval) by nia. lia. }
  rewrite Hmult.
  destruct (N.eqb_spec (total mod interval) 0) as [Hz|Hnz].
  - rewrite elem_of_empty. tauto.
  - rewrite elem_of_singleton. tauto.
Qed.

Section TrackerClaims.
Context `{STL : StdAlgorithms} {contracts : StdContracts STL}.
Context `{SC : StreamContract Src}.

(** C2: on a stream that is to yield T players, with a positive interval
    R, [rankIncoming] reads the stream to its end and returns a [top_] of
    length min(R, T), sorted ascending by level, with the levels of the
    min(R, T) largest of the players read; when T = 0, [top_] and
    [cutoffs_] are empty. *)
Theorem rankIncoming_returns_top (s : Src)
    (interval : size_t) (fuel : nat) (tr : list event) :
  valid s → 0 < interval →
  let T := length (upcoming s) in
  let k := (N.to_nat interval `min` T)%nat in
  (T < fuel)%nat →
  ∃ r w,
    Online.rankIncoming fuel interval (mkWorld s tr) = (Ok r, w) ∧
    remaining (stream w) = 0 ∧
    length (top_ r) = k ∧ ascending (levels (top_ r)) ∧
    levels (top_ r) ≡ₚ naive_top k (levels (upcoming s)) ∧
    (T = 0%nat → top_ r = [] ∧ cutoffs_ r = ∅).
Proof.
  intros Hwf Hpos T k Hfuel.
  destruct (rankIncoming_spec fuel interval s tr Hwf Hpos Hfuel)
    as (r & w & Hrun & Hend & Hsorted & (rest & h & Hsel & Htop & Hlen) & _ & Hkeys).
  exists r, w.
  pose proof (selects_naive_top _ _ _ _ Hsel Htop Hsorted) as Heq.
  rewrite Hlen in Heq. fold T k in Heq.
  assert (Hk : length (top_ r) = k) by (by rewrite Htop, Hlen).
  split_and!; [done|done|done|rewrite Heq; apply naive_top_ascending|by rewrite Heq|].
  intros HT. split.
  - apply nil_length_inv. lia.
  - apply map_empty. intros c. apply eq_None_not_Some. rewrite Hkeys.
    unfold milestone, vector_size. fold T. rewrite HT, N.Div0.mod_0_l. lia.
Qed.

(** C3: the keys of the [cutoffs_] that [rankIncoming] returns are the
    multiples R, 2R, ... of the interval up to the total T, and T itself
    when it is no multiple; the value at a key [c] is the least level
    among the min(R, c) largest of the first [c] players. *)
Theorem rankIncoming_cutoffs (s : Src)
    (interval : size_t) (fuel : nat) (tr : list event) :
  valid s → 0 < interval →
  let T := length (upcoming s) in
  (T < fuel)%nat →
  ∃ r w,
    Online.rankIncoming fuel interval (mkWorld s tr) = (Ok r, w) ∧
    dom (cutoffs_ r) = cutoff_keys interval (N.of_nat T) ∧
    ∀ c, c ∈ dom (cutoffs_ r) →
      ∃ v, cutoffs_ r !! c = Some v ∧
           head (naive_top (N.to_nat (N.min interval c))
                   (levels (take (N.to_nat c) (upcoming s)))) = Some v.
Proof.
  intros Hwf Hpos T Hfuel.
  destruct (rankIncoming_spec fuel interval s tr Hwf Hpos Hfuel)
    as (r & w & Hrun & _ & _ & _ & Hsound & Hkeys).
  exists r, w. split_and!; [done|..].
  - apply set_eq. intros c.
    by rewrite elem_of_dom, Hkeys, elem_of_cutoff_keys.
  - intros c [v Hv]%elem_of_dom. exists v. split; [done|]. by apply Hsound.
Qed.

End TrackerClaims.

Lemma rankIncoming_returns_top_witness :
  let s := VectorPlayerStream.make (players_of [5; 9; 2; 8; 1; 7; 3; 10; 4; 6]) in
  ∃ r w,
    Online.rankIncoming 11 3 (mkWorld s []) = (Ok r, w) ∧
    remaining (stream w) = 0 ∧
    length (top_ r) = 3%nat ∧ ascending (levels (top_ r)) ∧
    levels (top_ r) ≡ₚ naive_top 3 (levels (upcoming s)) ∧
    (10 = 0 → top_ r = [] ∧ cutoffs_ r = ∅)%nat.
Proof.
  assert (Hvalid : valid (VectorPlayerStream.make
                            (players_of [5; 9; 2; 8; 1; 7; 3; 10; 4; 6])))
    by (split; by vm_compute).
  exact (rankIncoming_returns_top (contracts := reference_contracts)
           (VectorPlayerStream.make (players_of [5; 9; 2; 8; 1; 7; 3; 10; 4; 6])) 3 11 []
           Hvalid eq_refl ltac:(vm_compute; lia)).
Defined.

Lemma rankIncoming_cutoffs_witness :
  let s := VectorPlayerStream.make (players_of [5; 9; 2; 8; 1; 7; 3; 10; 4; 6]) in
  ∃ r w,
    Online.rankIncoming 11 3 (mkWorld s []) = (Ok r, w) ∧
    dom (cutoffs_ r) = cutoff_keys 3 10 ∧
    ∀ c, c ∈ dom (cutoffs_ r) →
      ∃ v, cutoffs_ r !! c = Some v ∧
           head (naive_top (N.to_nat (N.min 3 c))
                   (levels (take (N.to_nat c) (upcoming s)))) = Some v.
Proof.
  assert (Hvalid : valid (VectorPlayerStream.make
                            (players_of [5; 9; 2; 8; 1; 7; 3; 10; 4; 6])))
    by (split; by vm_compute).
  exact (rankIncoming_cutoffs (contracts := reference_contracts)
           (VectorPlayerStream.make (players_of [5; 9; 2; 8; 1; 7; 3; 10; 4; 6])) 3 11 []
           Hvalid eq_refl ltac:(vm_compute; lia)).
Defined.

(** * The discipline of the tracker on its stream *)

Lemma pairs_ind (P : list event → Prop) :
  P [] → (∀ e, P [e]) → (∀ e1 e2 tr, P tr → P (e1 :: e2 :: tr)) → ∀ tr, P tr.
Proof.
  intros Hnil Hone Hcons tr.
  enough (P tr ∧ ∀ e, P (e :: tr)) by tauto.
  induction tr as [|e tr [IH1 IH2]]; [by split|].
  split; [apply IH2|]. intros e'. by apply Hcons.
Qed.

Lemma pulls_only_app p q :
  pulls_only p = true → pulls_only q = true → pulls_only (p ++ q) = true.
Proof.
  induction p as [|e|e1 e2 p IH] using pairs_ind; [done|by destruct e|].
  destruct e1 as [r|], e2; try done. simpl.
  intros [Hr Hp]%andb_prop Hq. by rewrite Hr, IH.
Qed.

Lemma only_zero_app z z' :
  only_zero z = true → only_zero z' = true → only_zero (z ++ z') = true.
Proof.
  induction z as [|[r|] z IH]; [done| |done]. simpl.
  intros [Hr Hz]%andb_prop Hz'. by rewrite Hr, IH.
Qed.

Lemma checked_pulls_app p z :
  pulls_only p = true → only_zero z = true → checked_pulls (p ++ z) = true.
Proof.
  induction p as [|e|e1 e2 p IH] using pairs_ind; [|by destruct e|].
  - intros _ Hz. destruct z as [|[r|] [|[r'|] z]]; try done.
    simpl in Hz. by rewrite andb_false_r in Hz.
  - destruct e1 as [r|], e2; try done. simpl.
    intros [Hr Hp]%andb_prop Hz. by rewrite Hr, IH.
Qed.

Lemma benign_bind {A B} (x : outcome A) (f : A → outcome B) :
  benign x → (∀ a, benign (f a)) → benign (x ≫= f).
Proof.
  intros Hx Hf. destruct x as [a|e]; [apply Hf|].
  intros [= ->]. by apply Hx.
Qed.

Lemma at_benign {A} (v : list A) i : benign (at_ v i).
Proof. unfold at_. by case_match. Qed.

Lemma front_benign {A} (v : list A) : benign (front v).
Proof. by destruct v. Qed.

Lemma size_mod_benign a b : benign (size_mod a b).
Proof. unfold size_mod. by case_match. Qed.

Lemma smaller_of_benign heapSize heap c s : benign (Online.smaller_of heapSize heap c s).
Proof.
  unfold Online.smaller_of. case_match; [|done].
  apply benign_bind; [apply at_benign|]. intros child.
  apply benign_bind; [apply at_benign|]. done.
Qed.

Lemma percolate_benign fuel heapSize heap index :
  benign (Online.percolate fuel heapSize heap index).
Proof.
  revert heap index. induction fuel as [|fuel IH]; intros heap index; [done|].
  simpl. apply benign_bind; [apply smaller_of_benign|]. intros m1.
  apply benign_bind; [apply smaller_of_benign|]. intros m2.
  case_match; [done|].
  apply benign_bind; [|intros; apply IH].
  unfold Online.swap. apply benign_bind; [apply at_benign|]. intros x.
  apply benign_bind; [apply at_benign|]. done.
Qed.

Lemma replaceMin_benign range target : benign (Online.replaceMin range target).
Proof.
  unfold Online.replaceMin. case_match; [done|].
  apply benign_bind.
  - unfold Online.store. apply benign_bind; [apply at_benign|done].
  - intros range'. apply benign_bind; [apply percolate_benign|done].
Qed.

Lemma record_cutoff_benign top cutoffs count :
  benign (Online.record_cutoff top cutoffs count).
Proof. unfold Online.record_cutoff. apply benign_bind; [apply front_benign|done]. Qed.

Lemma process_player_benign interval top cutoffs count next :
  benign (Online.process_player interval top cutoffs count next).
Proof.
  unfold Online.process_player.
  apply benign_bind; [apply front_benign|]. intros root.
  apply benign_bind.
  { case_match; [|done]. apply benign_bind; [apply replaceMin_benign|]. by intros []. }
  intros top'. apply benign_bind; [apply size_mod_benign|]. intros m.
  apply benign_bind; [|done]. case_match; [apply record_cutoff_benign|done].
Qed.

Section DisciplineFacts.
Context `{STL : StdAlgorithms} `{PlayerStream Src}.

(** A stream is honest when it produces a player whenever it says it has
    one; [honest] is to hold of its state. *)
Variable honest : Src → Prop.
Hypothesis honest_next : ∀ s, honest s → 0 < remaining s →
  ∃ p s', nextPlayer s = (Ok p, s') ∧ honest s'.
#[local] Abbreviation keeps := (kept honest).

Lemma kept_bind {A B} (m : M Src A) (f : A → M Src B) w :
  keeps w (m w) →
  (∀ a w', disciplined w' → keeps w' (f a w')) →
  keeps w ((m ≫= f) w).
Proof.
  intros [Hdisc Hhon] Hf. unfold mbind, M_bind.
  destruct (m w) as [[a|e] w1]; simpl in *.
  - destruct (Hf a w1 Hdisc) as [Hdisc' Hhon']. split; [done|].
    intros Hw. apply Hhon'. by apply Hhon.
  - split; [done|]. intros Hw. destruct (Hhon Hw) as [? Hben]. split; [done|].
    intros [= ->]. by apply Hben.
Qed.

Lemma kept_lift {A} (x : outcome A) w :
  disciplined w → benign x → keeps w (lift x w).
Proof. intros Hdisc Hx. by split. Qed.

Lemma kept_ret {A} (a : A) w : disciplined w → keeps w (mret (M := M Src) a w).
Proof. intros Hdisc. by split. Qed.

Lemma disciplined_zero w :
  disciplined w → remaining (stream w) = 0 →
  disciplined (mkWorld (stream w) (calls w ++ [CallRemaining 0])).
Proof.
  intros (p & z & Hcalls & Hp & Hz & _) Hrem.
  exists p, (z ++ [CallRemaining 0]). simpl.
  split_and!; [by rewrite Hcalls, app_assoc|done|by apply only_zero_app|done].
Qed.

Lemma disciplined_pull w s' :
  disciplined w → 0 < remaining (stream w) →
  disciplined (mkWorld s' ((calls w ++ [CallRemaining (remaining (stream w))])
                             ++ [CallNextPlayer])).
Proof.
  intros (p & z & Hcalls & Hp & Hz & Hend) Hrem.
  destruct z as [|e z]; [|rewrite Hend in Hrem by done; lia].
  exists (p ++ [CallRemaining (remaining (stream w)); CallNextPlayer]), []. simpl.
  split_and!; [|apply pulls_only_app; [done|]|done..].
  - rewrite Hcalls, !app_nil_r, <-app_assoc. done.
  - simpl. by destruct (N.ltb_spec 0 (remaining (stream w))); [|lia].
Qed.

(** A guarded pull: [remaining], and [nextPlayer] if the answer is
    positive. *)
Lemma kept_guarded_pull {A} (f : Player → M Src A) (a : A) w :
  disciplined w →
  (∀ p w', disciplined w' → keeps w' (f p w')) →
  keeps w ((r ← call_remaining;
           if 0 <? r then p ← call_nextPlayer; f p else mret a : M Src A) w).
Proof.
  intros Hdisc Hf. unfold mbind at 1, M_bind at 1, call_remaining. simpl.
  destruct (N.ltb_spec 0 (remaining (stream w))) as [Hpos|Hzero].
  - unfold mbind, M_bind, call_nextPlayer. simpl.
    pose proof (disciplined_pull w) as Hpull.
    destruct (nextPlayer (stream w)) as [[p|e] s'] eqn:Hnext.
    + destruct (Hf p _ (Hpull s' Hdisc Hpos)) as [Hdisc' Hhon']. split; [done|].
      intros Hw. apply Hhon'. simpl.
      destruct (honest_next _ Hw Hpos) as (p' & s'' & Hnext' & Hs'). congruence.
    + split; [by apply Hpull|]. simpl. intros Hw.
      destruct (honest_next _ Hw Hpos) as (p' & s'' & Hnext' & Hs'). congruence.
  - assert (Hrem : remaining (stream w) = 0) by lia. rewrite Hrem.
    split; [by apply disciplined_zero|done].
Qed.

Lemma prime_kept fuel interval top count w :
  disciplined w → keeps w (Online.prime fuel interval top count w).
Proof.
  revert top count w. induction fuel as [|fuel IH]; intros top count w Hdisc.
  { by apply kept_lift. }
  simpl. case_match; [|by apply kept_ret].
  apply kept_guarded_pull; [done|]. intros p w' Hw'. by apply IH.
Qed.

Lemma process_kept fuel interval top cutoffs count w :
  disciplined w → keeps w (Online.process fuel interval top cutoffs count w).
Proof.
  revert top cutoffs count w. induction fuel as [|fuel IH]; intros top cutoffs count w Hdisc.
  { by apply kept_lift. }
  simpl. apply kept_guarded_pull; [done|]. intros p w' Hw'.
  apply kept_bind; [apply kept_lift; [done|apply process_player_benign]|].
  intros [top' cutoffs'] w'' Hw''. by apply IH.
Qed.

Lemma rankIncoming_kept fuel interval w :
  disciplined w → keeps w (Online.rankIncoming fuel interval w).
Proof.
  intros Hdisc. unfold Online.rankIncoming.
  apply kept_bind; [by apply prime_kept|]. intros [top count] w1 Hw1.
  apply kept_bind.
  { case_match; [|by apply kept_ret].
    apply kept_lift; [done|apply record_cutoff_benign]. }
  intros cutoffs w2 Hw2.
  apply kept_bind; [by apply process_kept|]. intros [[top' cutoffs'] count'] w3 Hw3.
  apply kept_bind; [apply kept_lift; [done|apply size_mod_benign]|]. intros m w4 Hw4.
  apply kept_bind; [|intros; by apply kept_ret].
  case_match; [|by apply kept_ret].
  apply kept_lift; [done|apply record_cutoff_benign].
Qed.

End DisciplineFacts.

(** C7: [nextPlayer] throws exactly when [remaining] is 0 at the call, and
    what it throws is [SourceExhausted]; when [remaining] is positive it
    returns a player. [rankIncoming] calls [nextPlayer] only right after a
    [remaining] that answered a positive count and pulls nothing once the
    answer was 0, so it never ends in [SourceExhausted]. *)
Theorem nextPlayer_throws_iff_exhausted `{STL : StdAlgorithms}
    (s : VectorPlayerStream.t) :
  VectorPlayerStream.reachable s →
  ((∃ e, (nextPlayer s).1 = Err e) ↔ remaining s = 0) ∧
  (remaining s = 0 → nextPlayer s = (Err SourceExhausted, s)) ∧
  (0 < remaining s → ∃ p s', nextPlayer s = (Ok p, s')) ∧
  ∀ fuel interval,
    let run := Online.rankIncoming fuel interval (mkWorld s []) in
    checked_pulls (calls run.2) = true ∧ run.1 ≠ Err SourceExhausted.
Proof.
  intros Hwf%StreamFacts.reachable_wf.
  assert (Hpos : 0 < remaining s → ∃ p s', nextPlayer s = (Ok p, s')).
  { intros Hrem. pose proof (StreamFacts.stream_step s Hwf) as Hstep.
    destruct (VectorPlayerStream.pending s) as [|p l].
    - simpl in Hrem. lia.
    - destruct Hstep as (_ & s' & Hnext & _). by exists p, s'. }
  assert (Hzero : remaining s = 0 → nextPlayer s = (Err SourceExhausted, s)).
  { intros Hrem. simpl in *. rewrite StreamFacts.remaining_wf in Hrem by done.
    unfold VectorPlayerStream.nextPlayer.
    by destruct (N.leb_spec (vector_size (VectorPlayerStream.players_ s))
                            (VectorPlayerStream.currentIndex_ s)); [|lia]. }
  split_and!; [|done..|].
  - split.
    + intros [e He]. destruct (N.eq_0_gt_0_cases (remaining s)) as [|Hrem]; [done|].
      destruct (Hpos Hrem) as (p & s' & Hnext). by rewrite Hnext in He.
    + intros Hrem. exists SourceExhausted. by rewrite Hzero.
  - intros fuel interval run.
    destruct (rankIncoming_kept VectorPlayerStream.wf) with (fuel := fuel) (interval := interval)
      (w := mkWorld s []) as [(p & z & Hcalls & Hp & Hz & _) Hhonest].
    { intros s0 Hs0 Hrem. pose proof (StreamFacts.stream_step s0 Hs0) as Hstep.
      destruct (VectorPlayerStream.pending s0) as [|q l].
      - simpl in Hrem. lia.
      - destruct Hstep as (_ & s' & Hnext & Hs' & _). by exists q, s'. }
    { exists [], []. by split_and!. }
    fold run in Hcalls, Hhonest. split.
    + rewrite Hcalls. by apply checked_pulls_app.
    + by apply Hhonest.
Qed.

Lemma nextPlayer_throws_iff_exhausted_witness :
  let s := VectorPlayerStream.make (players_of [5; 9; 2; 8]) in
  ((∃ e, (nextPlayer s).1 = Err e) ↔ remaining s = 0) ∧
  (remaining s = 0 → nextPlayer s = (Err SourceExhausted, s)) ∧
  (0 < remaining s → ∃ p s', nextPlayer s = (Ok p, s')) ∧
  ∀ fuel interval,
    let run := Online.rankIncoming fuel interval (mkWorld s []) in
    checked_pulls (calls run.2) = true ∧ run.1 ≠ Err SourceExhausted.
Proof.
  apply (nextPlayer_throws_iff_exhausted (VectorPlayerStream.make (players_of [5; 9; 2; 8]))).
  constructor. by vm_compute.
Defined.

(** C8: a player read by the second loop whose level is not above the
    level of the root leaves the buffer as it is, the player at the very
    level of the root as well. *)
Theorem discarded_player_leaves_buffer (interval : size_t)
    (topPlayers : list Player) (cutoffs : gmap size_t size_t)
    (playerCount : size_t) (next root : Player) :
  front topPlayers = Ok root → level_ next ≤ level_ root →
  (∀ topPlayers' cutoffs',
     Online.process_player interval topPlayers cutoffs playerCount next
       = Ok (topPlayers', cutoffs') → topPlayers' = topPlayers) ∧
  (0 < interval →
   ∃ cutoffs',
     Online.process_player interval topPlayers cutoffs playerCount next
       = Ok (topPlayers, cutoffs')).
Proof.
  intros Hroot Hle. unfold Online.process_player. rewrite Hroot. simpl.
  destruct (N.ltb_spec (level_ root) (level_ next)) as [|_]; [lia|]. simpl.
  split.
  - intros top' cutoffs'. destruct (size_mod playerCount interval) as [m|e]; [|done].
    unfold mbind, outcome_bind, mret, outcome_ret.
    destruct (m =? 0); [destruct (Online.record_cutoff _ _ _)|]; congruence.
  - intros Hpos. unfold size_mod. destruct (N.eqb_spec interval 0) as [|_]; [lia|].
    simpl. unfold Online.record_cutoff. rewrite Hroot. simpl.
    destruct (_ =? 0); by eexists.
Qed.

Lemma discarded_player_leaves_buffer_witness :
  let topPlayers := players_of [5; 8; 9] in
  (∀ topPlayers' cutoffs',
     Online.process_player 3 topPlayers ∅ 5 (mkPlayer "tie" 5)
       = Ok (topPlayers', cutoffs') → topPlayers' = topPlayers) ∧
  (0 < 3 →
   ∃ cutoffs',
     Online.process_player 3 topPlayers ∅ 5 (mkPlayer "tie" 5)
       = Ok (topPlayers, cutoffs')).
Proof.
  apply (discarded_player_leaves_buffer 3 (players_of [5; 8; 9]) ∅ 5
           (mkPlayer "tie" 5) (mkPlayer "" 5)).
  - reflexivity.
  - simpl. lia.
Defined.

(** C4, as the code has it: [rankIncoming] does not check its interval.
    With the interval 0 it reads no player and evaluates [front] of the
    empty buffer, which is undefined, before any modulo by zero; it does
    not end in [InvalidInterval]. *)
Theorem zero_interval_is_undefined `{STL : StdAlgorithms}
    {contracts : StdContracts STL} `{PlayerStream Src}
    (fuel : nat) (w : World Src) :
  (0 < fuel)%nat →
  Online.rankIncoming fuel 0 w = (Err (UndefinedBehaviour FrontOfEmpty), w).
Proof.
  intros Hfuel. destruct fuel as [|fuel]; [lia|].
  unfold Online.rankIncoming. simpl.
  pose proof (make_heap_perm player_gt [] player_gt_swo) as Hperm.
  apply Permutation_nil_r in Hperm.
  unfold mbind, M_bind, mret, M_ret. simpl. by rewrite Hperm.
Qed.

Lemma zero_interval_is_undefined_witness :
  Online.rankIncoming 5 0 (mkWorld (VectorPlayerStream.make (players_of [5; 9; 2])) [])
    = (Err (UndefinedBehaviour FrontOfEmpty),
       mkWorld (VectorPlayerStream.make (players_of [5; 9; 2])) []).
Proof.
  apply (zero_interval_is_undefined (contracts := reference_contracts) 5
           (mkWorld (VectorPlayerStream.make (players_of [5; 9; 2])) [])).
  lia.
Defined.

(** C4, as stated, fails: an interval of zero is not rejected as
    [InvalidInterval]. *)
Lemma zero_interval_is_not_rejected :
  let run := Online.rankIncoming 5 0
               (mkWorld (VectorPlayerStream.make (players_of [5; 9; 2])) []) in
  run.1 = Err (UndefinedBehaviour FrontOfEmpty) ∧ run.1 ≠ Err InvalidInterval.
Proof. by vm_compute. Qed.

(** * Further properties of the offline selectors *)

Section OfflineExtras.
Context `{STL : StdAlgorithms} {contracts : StdContracts STL}.

Lemma selects_submseteq input rest sel top :
  selects input rest sel → top ≡ₚ sel → top ⊆+ input.
Proof.
  intros [Hperm _] Htop. rewrite Htop, Hperm. by apply submseteq_inserts_l.
Qed.

(** X1: both selectors return with no cutoffs, leave the vector a
    permutation of what it was, and return in [top_] players of the vector,
    none more often than the vector has it. *)
Theorem offline_selectors_keep_players (players : list Player) :
  fits players →
  ∃ r1 v1 r2 v2,
    Offline.quickSelectRank players = Ok (r1, v1) ∧
    Offline.heapRank players = Ok (r2, v2) ∧
    (v1 ≡ₚ players ∧ cutoffs_ r1 = ∅ ∧ top_ r1 ⊆+ players) ∧
    (v2 ≡ₚ players ∧ cutoffs_ r2 = ∅ ∧ top_ r2 ⊆+ players).
Proof.
  intros Hfit.
  destruct (quickSelectRank_spec players Hfit)
    as (r1 & v1 & Hq & Hp1 & Hc1 & _ & rest1 & sel1 & Hsel1 & Htop1 & _).
  destruct (heapRank_spec players Hfit)
    as (r2 & v2 & Hh & Hp2 & Hc2 & _ & rest2 & sel2 & Hsel2 & Htop2 & _).
  exists r1, v1, r2, v2.
  split_and!; [done..|by apply (selects_submseteq _ rest1 sel1)|done|done|
               by apply (selects_submseteq _ rest2 sel2)].
Qed.

(** X2: [quickSelectRank] leaves the vector partitioned: the players
    returned are the last (N + 9) / 10 of the reordered vector, and no
    player before them is at a higher level than one of them. *)
Theorem quickSelectRank_partitions_vector (players : list Player) :
  fits players →
  let n := length players in
  let k := ((n + 9) / 10)%nat in
  ∃ r v,
    Offline.quickSelectRank players = Ok (r, v) ∧
    top_ r ≡ₚ drop (n - k) v ∧
    ∀ a b, a ∈ take (n - k) v → b ∈ drop (n - k) v → level_ a ≤ level_ b.
Proof.
  intros Hfit n k. fold (top_count n) in k. unfold Offline.quickSelectRank.
  rewrite topCount_fits by done. fold n k.
  pose proof (top_count_le n) as Hle. fold k in Hle.
  rewrite iter_sub_ok by (unfold vector_size; lia).
  cbn [mbind outcome_bind]. unfold nth_element.
  destruct (N.leb_spec (vector_size players - N.of_nat k) (vector_size players)); [|lia].
  cbn [mbind outcome_bind].
  replace (N.to_nat (vector_size players - N.of_nat k)) with (n - k)%nat
    by (unfold vector_size; lia).
  assert (Hperm := nth_element_perm player_lt players (n - k) player_lt_swo ltac:(lia)).
  set (v := std_nth_element player_lt players (n - k)) in *.
  assert (Hsize : vector_size v = vector_size players).
  { unfold vector_size. by rewrite Hperm. }
  rewrite Hsize, iter_sub_ok by (unfold vector_size; lia).
  cbn [mbind outcome_bind].
  replace (N.to_nat (vector_size players - N.of_nat k)) with (n - k)%nat
    by (unfold vector_size; lia).
  eexists _, v. split_and!; [done|apply sort_perm, player_lt_swo|].
  intros a b [i [Ha Hi]]%elem_of_take [j Hb]%list_elem_of_lookup.
  rewrite lookup_drop in Hb.
  pose proof (nth_element_partition player_lt players (n - k) i (n - k + j) a b
    player_lt_swo ltac:(lia) Hi ltac:(lia) Ha Hb). level_lia.
Qed.

(** The loop of [heapRank] extracts the players in descending order, each
    in front of those extracted before it. *)
Lemma heapRank_loop_layout fuel (k i : nat) (heap done : list Player) :
  fits (heap ++ done) →
  (i ≤ k)%nat → (k ≤ length (heap ++ done))%nat → (k - i < fuel)%nat →
  length done = i → is_heap player_lt heap →
  (∀ a b, a ∈ heap → b ∈ done → level_ a ≤ level_ b) →
  sorted_by player_lt done →
  ∃ heap' done',
    Offline.heapRank_loop fuel (N.of_nat k) (N.of_nat i) (heap ++ done) (reverse done)
      = Ok (heap' ++ done', reverse done') ∧
    length done' = k ∧ length (heap' ++ done') = length (heap ++ done) ∧
    is_heap player_lt heap' ∧ sorted_by player_lt done' ∧
    (∀ a b, a ∈ heap' → b ∈ done' → level_ a ≤ level_ b).
Proof.
  revert i heap done.
  induction fuel as [|fuel IH]; intros i heap done Hfit Hik Hk Hfuel Hdone Hheap Hle Hsorted;
    [lia|]. simpl.
  destruct (N.ltb_spec (N.of_nat i) (N.of_nat k)) as [Hlt|Hge].
  2: { exists heap, done. assert (i = k) by lia. by subst k. }
  pose proof (fits_lt _ Hfit) as Hsize. unfold vector_size in Hsize.
  rewrite length_app in Hk, Hsize.
  rewrite iter_sub_ok by (unfold vector_size; rewrite length_app; lia). simpl.
  replace (N.to_nat (vector_size (heap ++ done) - N.of_nat i)) with (length heap)
    by (unfold vector_size; rewrite length_app; lia).
  rewrite take_app_length, drop_app_length.
  destruct heap as [|x heap]; [simpl in *; lia|].
  unfold pop_heap. rewrite is_heapb_true by done.
  destruct (pop_heap_spec player_lt x heap player_lt_swo Hheap) as (h & -> & Hh & Hheap').
  simpl.
  assert (Hlen : length h = length heap) by by rewrite Hh.
  assert (Hat : at_ ((h ++ [x]) ++ done)
            (size_sub (size_sub (vector_size ((h ++ [x]) ++ done)) 1) (N.of_nat i)) = Ok x).
  { rewrite !size_sub_small by (rewrite ?size_sub_small; size_lia). unfold at_.
    rewrite <-app_assoc. simpl.
    by rewrite list_lookup_middle by size_lia. }
  rewrite Hat. simpl. rewrite wrap_small by size_lia.
  replace (N.of_nat i + 1) with (N.of_nat (S i)) by lia.
  rewrite <-app_assoc. simpl. rewrite <-reverse_cons.
  destruct (IH (S i) h (x :: done)) as (heap' & done' & Hrun & ? & Hlen' & ? & ? & ?).
  - eapply fits_perm; [|done]. by rewrite Hh, <-Permutation_middle.
  - lia.
  - rewrite length_app. simpl in *. lia.
  - lia.
  - simpl. lia.
  - done.
  - intros a b Ha [->|Hb]%elem_of_cons.
    + rewrite Hh in Ha.
      pose proof (heap_root player_lt x heap a player_lt_swo Hheap ltac:(set_solver)).
      level_lia.
    + apply Hle; [|done]. rewrite Hh in Ha. set_solver.
  - constructor; [done|]. apply Forall_forall. intros b Hb.
    pose proof (Hle x b ltac:(left) Hb). level_lia.
  - exists heap', done'. split_and!; try done.
    rewrite Hlen', !length_app. simpl. lia.
Qed.

(** X3: [heapRank] sorts the top of the vector in place: the last
    (N + 9) / 10 positions of the reordered vector hold the players
    returned, at the very levels of [top_] in its order; the positions
    before them are a max-heap, and none of its players is at a higher
    level than one of the last. *)
Theorem heapRank_sorts_tail_in_place (players : list Player) :
  fits players →
  let n := length players in
  let k := ((n + 9) / 10)%nat in
  ∃ r v,
    Offline.heapRank players = Ok (r, v) ∧
    top_ r ≡ₚ drop (n - k) v ∧
    levels (drop (n - k) v) = levels (top_ r) ∧
    is_heap player_lt (take (n - k) v) ∧
    ∀ a b, a ∈ take (n - k) v → b ∈ drop (n - k) v → level_ a ≤ level_ b.
Proof.
  intros Hfit n k. fold (top_count n) in k. unfold Offline.heapRank.
  rewrite topCount_fits by done. fold n k.
  pose proof (top_count_le n) as Hle. fold k in Hle.
  assert (Hperm := make_heap_perm player_lt players player_lt_swo).
  destruct (heapRank_loop_layout (S (N.to_nat (N.of_nat k))) k 0
    (std_make_heap player_lt players) [])
    as (heap & done & Hrun & Hdone & Hlen & Hheap & Hsorted & Hpart).
  - rewrite app_nil_r. by eapply fits_perm.
  - lia.
  - rewrite app_nil_r, Hperm. fold n. lia.
  - lia.
  - done.
  - apply make_heap_heap, player_lt_swo.
  - set_solver.
  - constructor.
  - rewrite app_nil_r in Hrun, Hlen. change (N.of_nat 0) with 0 in Hrun.
    change (reverse []) with (@nil Player) in Hrun.
    rewrite Hrun. cbn [mbind outcome_bind].
    rewrite Hperm, length_app in Hlen. fold n in Hlen.
    assert (Hheaplen : length heap = (n - k)%nat) by lia.
    eexists _, _. split; [done|]. cbn [top_].
    rewrite <-Hheaplen, take_app_length, drop_app_length.
    assert (Htop : std_sort player_lt (reverse done) ≡ₚ done).
    { by rewrite (sort_perm _ _ player_lt_swo), reverse_Permutation. }
    split_and!; [done| |done..].
    apply ascending_unique; [by apply sorted_levels| |].
    + apply sorted_levels, sort_sorted, player_lt_swo.
    + unfold levels. by rewrite Htop.
Qed.

End OfflineExtras.

Lemma offline_selectors_keep_players_witness :
  let players := [mkPlayer "a" 7; mkPlayer "b" 9; mkPlayer "c" 9; mkPlayer "d" 1] in
  ∃ r1 v1 r2 v2,
    Offline.quickSelectRank players = Ok (r1, v1) ∧
    Offline.heapRank players = Ok (r2, v2) ∧
    (v1 ≡ₚ players ∧ cutoffs_ r1 = ∅ ∧ top_ r1 ⊆+ players) ∧
    (v2 ≡ₚ players ∧ cutoffs_ r2 = ∅ ∧ top_ r2 ⊆+ players).
Proof.
  apply (offline_selectors_keep_players (contracts := reference_contracts)
           [mkPlayer "a" 7; mkPlayer "b" 9; mkPlayer "c" 9; mkPlayer "d" 1]).
  by vm_compute.
Defined.

Lemma quickSelectRank_partitions_vector_witness :
  let players := players_of [5; 1; 4; 2; 8; 7; 3; 6; 9; 10; 11] in
  ∃ r v,
    Offline.quickSelectRank players = Ok (r, v) ∧
    top_ r ≡ₚ drop 9 v ∧
    ∀ a b, a ∈ take 9 v → b ∈ drop 9 v → level_ a ≤ level_ b.
Proof.
  apply (quickSelectRank_partitions_vector (contracts := reference_contracts)
           (players_of [5; 1; 4; 2; 8; 7; 3; 6; 9; 10; 11])).
  by vm_compute.
Defined.

Lemma heapRank_sorts_tail_in_place_witness :
  let players := players_of [5; 1; 4; 2; 8; 7; 3; 6; 9; 10; 11] in
  ∃ r v,
    Offline.heapRank players = Ok (r, v) ∧
    top_ r ≡ₚ drop 9 v ∧
    levels (drop 9 v) = levels (top_ r) ∧
    is_heap player_lt (take 9 v) ∧
    ∀ a b, a ∈ take 9 v → b ∈ drop 9 v → level_ a ≤ level_ b.
Proof.
  apply (heapRank_sorts_tail_in_place (contracts := reference_contracts)
           (players_of [5; 1; 4; 2; 8; 7; 3; 6; 9; 10; 11])).
  by vm_compute.
Defined.

(** * Further properties of the heap maintainer *)

(** X4: on every non-empty range, a heap or not, [replaceMin] returns: it
    reads nothing outside the range, moves from the target, and leaves the
    players of the range without the one at its root, with the target. *)
Theorem replaceMin_permutes_any_range (range : list Player) (target : Player) :
  fits range → range ≠ [] →
  ∃ range',
    Online.replaceMin range target = Ok (range', Online.MovedFrom) ∧
    range' ≡ₚ target :: tail range.
Proof.
  intros Hfit Hne. destruct range as [|root rest]; [done|].
  destruct (replaceMin_nonempty root rest target Hfit) as (heap' & Hrun & Hperm & _).
  by exists heap'.
Qed.

Lemma replaceMin_permutes_any_range_witness :
  ∃ range',
    Online.replaceMin (players_of [9; 1; 7; 3]) (mkPlayer "next" 8)
      = Ok (range', Online.MovedFrom) ∧
    range' ≡ₚ mkPlayer "next" 8 :: tail (players_of [9; 1; 7; 3]).
Proof.
  apply (replaceMin_permutes_any_range (players_of [9; 1; 7; 3]) (mkPlayer "next" 8));
    [by vm_compute|done].
Defined.

Section HeapExtras.
Import Online.
#[local] Arguments Nat.mul : simpl never.
#[local] Arguments N.mul : simpl never.

(** The loop stops at once where the element is not above its children. *)
Lemma percolate_stop fuel (a : list Player) (i : nat) :
  fits a → (i < length a)%nat →
  pick a (2 * i + 2) (pick a (2 * i + 1) i) = i →
  percolate (S fuel) (vector_size a) a (N.of_nat i) = Ok a.
Proof.
  intros Hfit Hi Hpick. simpl. rewrite !wrap_small by size_lia.
  replace (2 * N.of_nat i + 1) with (N.of_nat (2 * i + 1)) by lia.
  replace (2 * N.of_nat i + 2) with (N.of_nat (2 * i + 2)) by lia.
  rewrite smaller_of_pick by done. simpl.
  rewrite smaller_of_pick by by apply pick_lt. simpl.
  rewrite Hpick. by rewrite N.eqb_refl.
Qed.

(** X5: a target that is not above the children of the root stays at the
    root: [replaceMin] writes the root and nothing else; so it is on a
    range of one element. *)
Theorem replaceMin_keeps_small_target_at_root (root : Player)
    (rest : list Player) (target : Player) :
  fits (root :: rest) →
  (∀ c, c ∈ take 2 rest → level_ target ≤ level_ c) →
  replaceMin (root :: rest) target = Ok (target :: rest, MovedFrom).
Proof.
  intros Hfit Hsmall.
  change (replaceMin (root :: rest) target) with
    (percolate (S (length rest)) (vector_size (target :: rest)) (target :: rest)
       (N.of_nat 0) ≫= λ range, mret (range, MovedFrom)).
  rewrite percolate_stop; [done|done|simpl; lia|].
  unfold pick. change (2 * 0 + 1)%nat with 1%nat. change (2 * 0 + 2)%nat with 2%nat.
  destruct rest as [|c1 [|c2 rest]]; simpl; [done|..].
  - pose proof (Hsmall c1 ltac:(left)). unfold player_lt.
    by destruct (N.ltb_spec (level_ c1) (level_ target)); [lia|].
  - pose proof (Hsmall c1 ltac:(left)).
    pose proof (Hsmall c2 ltac:(right; left)).
    unfold player_lt.
    destruct (N.ltb_spec (level_ c1) (level_ target)); [lia|]. simpl.
    by destruct (N.ltb_spec (level_ c2) (level_ target)); [lia|].
Qed.

(** X6: a player above the root is admitted: it takes the place of the
    root in the buffer, which keeps its other players and stays a min-heap;
    the new root is not below the old one, and it is its level that a
    cutoff due at this count records. *)
Theorem admitted_player_replaces_root (interval : size_t)
    (topPlayers : list Player) (cutoffs : gmap size_t size_t)
    (playerCount : size_t) (next root : Player) :
  fits topPlayers → min_heap topPlayers → front topPlayers = Ok root →
  level_ root < level_ next → 0 < interval →
  ∃ topPlayers' cutoffs' root',
    process_player interval topPlayers cutoffs playerCount next
      = Ok (topPlayers', cutoffs') ∧
    topPlayers' ≡ₚ next :: tail topPlayers ∧ min_heap topPlayers' ∧
    front topPlayers' = Ok root' ∧ level_ root ≤ level_ root' ∧
    cutoffs' = (if playerCount mod interval =? 0
                then <[playerCount := level_ root']> cutoffs else cutoffs).
Proof.
  intros Hfit Hheap Hfront Hlt Hpos.
  destruct topPlayers as [|root0 rest]; [done|]. injection Hfront as ->.
  apply min_heap_is_heap in Hheap.
  destruct (replaceMin_nonempty root rest next Hfit) as (heap' & Hrun & Hperm & Hheap').
  destruct heap' as [|root' rest'].
  { by apply Permutation_length in Hperm. }
  exists (root' :: rest'),
    (if playerCount mod interval =? 0
     then <[playerCount := level_ root']> cutoffs else cutoffs), root'.
  split_and!; [|done|by apply min_heap_is_heap, Hheap'|done| |done].
  - unfold process_player.
    rewrite (obind_ok (front (root :: rest)) root) by done.
    destruct (N.ltb_spec (level_ root) (level_ next)); [|lia].
    rewrite Hrun. cbn [mbind outcome_bind mret outcome_ret].
    rewrite size_mod_ok by done. cbn [mbind outcome_bind mret outcome_ret].
    by destruct (_ =? 0).
  - assert (Hin : root' ∈ next :: rest) by (rewrite <-Hperm; left).
    apply elem_of_cons in Hin as [->|Hin]; [lia|].
    apply (min_heap_root root rest); [done|by right].
Qed.

End HeapExtras.

Lemma replaceMin_keeps_small_target_at_root_witness :
  Online.replaceMin (players_of [2; 5; 9; 7; 6]) (mkPlayer "next" 5)
    = Ok (mkPlayer "next" 5 :: players_of [5; 9; 7; 6], Online.MovedFrom).
Proof.
  apply (replaceMin_keeps_small_target_at_root (mkPlayer "" 2)
           (players_of [5; 9; 7; 6]) (mkPlayer "next" 5)).
  - by vm_compute.
  - intros c [->|[->|Hc%elem_of_nil]%elem_of_cons]%elem_of_cons; [simpl; lia..|done].
Defined.

Lemma admitted_player_replaces_root_witness :
  ∃ topPlayers' cutoffs' root',
    Online.process_player 3 (players_of [2; 5; 9]) ∅ 6 (mkPlayer "next" 8)
      = Ok (topPlayers', cutoffs') ∧
    topPlayers' ≡ₚ mkPlayer "next" 8 :: tail (players_of [2; 5; 9]) ∧
    min_heap topPlayers' ∧
    front topPlayers' = Ok root' ∧ level_ (mkPlayer "" 2) ≤ level_ root' ∧
    cutoffs' = (if 6 mod 3 =? 0 then <[6 := level_ root']> ∅ else ∅).
Proof.
  apply (admitted_player_replaces_root 3 (players_of [2; 5; 9]) ∅ 6
           (mkPlayer "next" 8) (mkPlayer "" 2)).
  - by vm_compute.
  - intros i p c Hi Hp Hc.
    assert (Hlt : (i < 3)%nat) by by apply lookup_lt_Some in Hc.
    destruct i as [|[|[|i]]]; try lia; by simplify_eq/=.
  - done.
  - simpl. lia.
  - lia.
Defined.

(** * Further properties of the vector stream *)

(** X11: on a stream, a call of [nextPlayer] that returns yields the first
    of the players to come, moves the index by one and so [remaining] down
    by one, and keeps the vector; a call that throws throws
    [SourceExhausted] on a stream with nothing remaining, and leaves the
    stream as it was. *)
Theorem nextPlayer_advances_by_one (s : VectorPlayerStream.t) :
  VectorPlayerStream.reachable s →
  match VectorPlayerStream.nextPlayer s with
  | (Ok p, s') =>
      VectorPlayerStream.players_ s' = VectorPlayerStream.players_ s ∧
      VectorPlayerStream.currentIndex_ s' = VectorPlayerStream.currentIndex_ s + 1 ∧
      VectorPlayerStream.remaining s' + 1 = VectorPlayerStream.remaining s ∧
      VectorPlayerStream.pending s = p :: VectorPlayerStream.pending s'
  | (Err e, s') =>
      e = SourceExhausted ∧ s' = s ∧ VectorPlayerStream.remaining s = 0
  end.
Proof.
  intros Hwf%StreamFacts.reachable_wf.
  pose proof (StreamFacts.remaining_wf s Hwf) as Hrem.
  destruct (N.le_gt_cases (vector_size (VectorPlayerStream.players_ s))
              (VectorPlayerStream.currentIndex_ s)) as [Hend|Hmore].
  - unfold VectorPlayerStream.nextPlayer.
    destruct (N.leb_spec (vector_size (VectorPlayerStream.players_ s))
                (VectorPlayerStream.currentIndex_ s)); [|lia].
    split_and!; [done..|lia].
  - destruct (StreamFacts.nextPlayer_ok s Hwf Hmore) as (p & Hp & Hnext).
    pose proof (StreamFacts.nextPlayer_wf s p _ Hwf Hnext) as Hwf'.
    rewrite Hnext, StreamFacts.remaining_wf by done. simpl.
    split_and!; [done|done|lia|].
    unfold VectorPlayerStream.pending. simpl.
    rewrite (drop_S _ _ _ Hp). do 2 f_equal. lia.
Qed.

Lemma nextPlayer_advances_by_one_witness :
  match VectorPlayerStream.nextPlayer (VectorPlayerStream.make (players_of [5; 9])) with
  | (Ok p, s') =>
      VectorPlayerStream.players_ s' = players_of [5; 9] ∧
      VectorPlayerStream.currentIndex_ s' = 0 + 1 ∧
      VectorPlayerStream.remaining s' + 1 = 2 ∧
      players_of [5; 9] = p :: VectorPlayerStream.pending s'
  | (Err e, s') =>
      e = SourceExhausted ∧ s' = VectorPlayerStream.make (players_of [5; 9]) ∧ 2 = 0
  end.
Proof.
  apply (nextPlayer_advances_by_one (VectorPlayerStream.make (players_of [5; 9]))).
  constructor. by vm_compute.
Defined.

(** * Further properties of the streaming tracker *)

Lemma filter_none {A} (P : A → Prop) `{∀ x, Decision (P x)} (l : list A) :
  Forall (λ x, ¬ P x) l → filter P l = [].
Proof.
  induction 1 as [|x l Hx _ IH]; [done|].
  rewrite filter_cons. by case_decide.
Qed.

Lemma filter_all {A} (P : A → Prop) `{∀ x, Decision (P x)} (l : list A) :
  Forall P l → filter P l = l.
Proof.
  induction 1 as [|x l Hx _ IH]; [done|].
  rewrite filter_cons. case_decide; [by rewrite IH|done].
Qed.

(** The levels of a sorted sequence above a level: none up to a position
    that holds it, all from a position that holds a higher one. *)
Lemma count_above_le (ls : list size_t) (p : nat) (v : size_t) :
  StronglySorted N.le ls → ls !! p = Some v →
  (length (filter (λ x, (v < x)%N) ls) ≤ length ls - S p)%nat.
Proof.
  intros Hsorted Hp. rewrite <-(take_drop (S p) ls) at 1. rewrite filter_app.
  rewrite (filter_none _ (take (S p) ls)).
  - simpl. etransitivity; [apply length_filter|]. by rewrite length_drop.
  - apply Forall_forall. intros x [i [Hx Hi]]%elem_of_take.
    destruct (decide (i = p)) as [->|Hne]; [simplify_eq; lia|].
    pose proof (sorted_lookup N.le ls i p x v Hsorted ltac:(lia) Hx Hp). lia.
Qed.

Lemma count_above_ge (ls : list size_t) (p : nat) (v w : size_t) :
  StronglySorted N.le ls → ls !! p = Some v → w < v →
  (length ls - p ≤ length (filter (λ x, (w < x)%N) ls))%nat.
Proof.
  intros Hsorted Hp Hw. rewrite <-(take_drop p ls) at 2. rewrite filter_app, length_app.
  rewrite (filter_all _ (drop p ls)); [rewrite length_drop; lia|].
  apply Forall_forall. intros x [j Hx]%list_elem_of_lookup.
  rewrite lookup_drop in Hx.
  destruct (decide (j = 0%nat)) as [->|Hne].
  - rewrite Nat.add_0_r in Hx. by simplify_eq.
  - pose proof (sorted_lookup N.le ls p (p + j) v x Hsorted ltac:(lia) Hp Hx). lia.
Qed.

(** More players do not lower the least of the [k] largest levels. *)
Lemma naive_top_head_mono k (a b : list size_t) v1 v2 :
  (0 < k ≤ length a)%nat →
  head (naive_top k a) = Some v1 → head (naive_top k (a ++ b)) = Some v2 →
  v1 ≤ v2.
Proof.
  intros Hk. unfold naive_top. rewrite !head_lookup, !lookup_drop, !Nat.add_0_r.
  pose proof (Permutation_length (merge_sort_Permutation N.le a)) as Hla.
  pose proof (Permutation_length (merge_sort_Permutation N.le (a ++ b))) as Hlab.
  rewrite length_app in Hlab.
  intros H1 H2. destruct (N.le_gt_cases v1 v2) as [|Hlt]; [done|]. exfalso.
  pose proof (count_above_le _ _ _ (merge_sort_le_sorted (a ++ b)) H2) as Hfew.
  pose proof (count_above_ge _ _ _ v2 (merge_sort_le_sorted a) H1 Hlt) as Hmany.
  rewrite (merge_sort_Permutation N.le (a ++ b)), filter_app, length_app in Hfew.
  rewrite (merge_sort_Permutation N.le a) in Hmany.
  rewrite length_app in Hfew. lia.
Qed.

Section TrackerExtras.
Context `{STL : StdAlgorithms} {contracts : StdContracts STL}.
Context `{SC : StreamContract Src}.

(** X7: the players that [rankIncoming] returns in [top_] are players the
    stream produced, none more often than it was read, and no player left
    out is at a higher level than one of them; a stream of no more players
    than the interval is returned whole. *)
Theorem rankIncoming_top_are_players_read (s : Src)
    (interval : size_t) (fuel : nat) (tr : list event) :
  valid s → 0 < interval → (length (upcoming s) < fuel)%nat →
  ∃ r w rest,
    Online.rankIncoming fuel interval (mkWorld s tr) = (Ok r, w) ∧
    upcoming s ≡ₚ rest ++ top_ r ∧
    (∀ a b, a ∈ rest → b ∈ top_ r → level_ a ≤ level_ b) ∧
    ((length (upcoming s) ≤ N.to_nat interval)%nat → top_ r ≡ₚ upcoming s).
Proof.
  intros Hs Hpos Hfuel.
  destruct (rankIncoming_spec fuel interval s tr Hs Hpos Hfuel)
    as (r & w & Hrun & _ & _ & (rest & h & [Hperm Hle] & Htop & Hlen) & _).
  exists r, w, rest. split_and!; [done|by rewrite Htop| |].
  - intros a b Ha Hb. rewrite Htop in Hb. by apply Hle.
  - intros Hshort. pose proof (Permutation_length Hperm) as Hl.
    rewrite length_app in Hl.
    assert (rest = []) as -> by (apply nil_length_inv; lia).
    by rewrite Htop, Hperm.
Qed.

(** X8: after a stream of T > 0 players, [cutoffs_] has the key T, and its
    value is the level of the first, the lowest, player of [top_]. *)
Theorem rankIncoming_last_cutoff_is_lowest_top (s : Src)
    (interval : size_t) (fuel : nat) (tr : list event) :
  valid s → 0 < interval →
  let T := length (upcoming s) in
  (0 < T)%nat → (T < fuel)%nat →
  ∃ r w v,
    Online.rankIncoming fuel interval (mkWorld s tr) = (Ok r, w) ∧
    cutoffs_ r !! N.of_nat T = Some v ∧
    head (levels (top_ r)) = Some v.
Proof.
  intros Hs Hpos T HT Hfuel.
  destruct (rankIncoming_spec fuel interval s tr Hs Hpos Hfuel)
    as (r & w & Hrun & _ & Hsorted & (rest & h & Hsel & Htop & Hlen) & Hsound & Hkeys).
  destruct (proj2 (Hkeys (N.of_nat T))) as [v Hv].
  { unfold milestone, vector_size. fold T.
    destruct (decide (N.of_nat T mod interval = 0)); [left|right]; [|done].
    split; [lia|done]. }
  exists r, w, v. split_and!; [done..|].
  pose proof (Hsound _ _ Hv) as Hat. unfold cutoff_at in Hat.
  rewrite Nat2N.id in Hat. unfold T in Hat at 2. rewrite firstn_all in Hat.
  rewrite (selects_naive_top _ _ _ _ Hsel Htop Hsorted), Hlen. fold T.
  by replace (N.to_nat interval `min` T)%nat with (N.to_nat (N.min interval (N.of_nat T))) by lia.
Qed.

(** X9: the cutoffs that [rankIncoming] returns never go down: a later
    count has a cutoff at least as high. *)
Theorem rankIncoming_cutoffs_never_decrease (s : Src)
    (interval : size_t) (fuel : nat) (tr : list event) :
  valid s → 0 < interval → (length (upcoming s) < fuel)%nat →
  ∃ r w,
    Online.rankIncoming fuel interval (mkWorld s tr) = (Ok r, w) ∧
    ∀ c1 c2 v1 v2,
      cutoffs_ r !! c1 = Some v1 → cutoffs_ r !! c2 = Some v2 →
      c1 ≤ c2 → v1 ≤ v2.
Proof.
  intros Hs Hpos Hfuel.
  destruct (rankIncoming_spec fuel interval s tr Hs Hpos Hfuel)
    as (r & w & Hrun & _ & _ & _ & Hsound & Hkeys).
  exists r, w. split; [done|]. intros c1 c2 v1 v2 H1 H2 Hc.
  destruct (decide (c1 = c2)) as [->|Hne]; [by simplify_eq|].
  set (T := vector_size (upcoming s)) in *.
  assert (Hkey2 : c2 ≤ T).
  { destruct (proj1 (Hkeys c2)) as [[? _]|[? _]]; [by eexists|lia..]. }
  assert (Hkey1 : 0 < c1 ∧ c1 mod interval = 0).
  { destruct (proj1 (Hkeys c1)) as [[? ?]|[? _]]; [by eexists|split; [lia|done]|lia]. }
  assert (Hfull : interval ≤ c1).
  { destruct (N.le_gt_cases interval c1) as [|Hlt]; [done|].
    destruct Hkey1 as [? Hmod]. rewrite N.mod_small in Hmod by done. lia. }
  apply Hsound in H1, H2. unfold cutoff_at in H1, H2.
  rewrite N.min_l in H1, H2 by lia.
  assert (Hsplit : take (N.to_nat c2) (upcoming s)
                   = take (N.to_nat c1) (upcoming s)
                     ++ drop (N.to_nat c1) (take (N.to_nat c2) (upcoming s))).
  { rewrite <-(take_drop (N.to_nat c1) (take (N.to_nat c2) (upcoming s))) at 1.
    rewrite take_take. by replace (N.to_nat c1 `min` N.to_nat c2)%nat with (N.to_nat c1) by lia. }
  rewrite Hsplit in H2. unfold levels in H1, H2. rewrite fmap_app in H2.
  eapply naive_top_head_mono; [|done..].
  rewrite length_fmap, length_take. subst T. unfold vector_size in *. lia.
Qed.

End TrackerExtras.

Lemma rankIncoming_top_are_players_read_witness :
  let s := VectorPlayerStream.make (players_of [5; 9; 2; 8; 1; 7; 3; 10; 4; 6]) in
  ∃ r w rest,
    Online.rankIncoming 11 3 (mkWorld s []) = (Ok r, w) ∧
    upcoming s ≡ₚ rest ++ top_ r ∧
    (∀ a b, a ∈ rest → b ∈ top_ r → level_ a ≤ level_ b) ∧
    ((length (upcoming s) ≤ N.to_nat 3)%nat → top_ r ≡ₚ upcoming s).
Proof.
  assert (Hvalid : valid (VectorPlayerStream.make
                            (players_of [5; 9; 2; 8; 1; 7; 3; 10; 4; 6])))
    by (split; by vm_compute).
  exact (rankIncoming_top_are_players_read (contracts := reference_contracts)
           (VectorPlayerStream.make (players_of [5; 9; 2; 8; 1; 7; 3; 10; 4; 6])) 3 11 []
           Hvalid eq_refl ltac:(vm_compute; lia)).
Defined.

Lemma rankIncoming_last_cutoff_is_lowest_top_witness :
  let s := VectorPlayerStream.make (players_of [5; 9; 2; 8; 1; 7; 3; 10; 4; 6]) in
  ∃ r w v,
    Online.rankIncoming 11 3 (mkWorld s []) = (Ok r, w) ∧
    cutoffs_ r !! 10 = Some v ∧
    head (levels (top_ r)) = Some v.
Proof.
  assert (Hvalid : valid (VectorPlayerStream.make
                            (players_of [5; 9; 2; 8; 1; 7; 3; 10; 4; 6])))
    by (split; by vm_compute).
  exact (rankIncoming_last_cutoff_is_lowest_top (contracts := reference_contracts)
           (VectorPlayerStream.make (players_of [5; 9; 2; 8; 1; 7; 3; 10; 4; 6])) 3 11 []
           Hvalid eq_refl ltac:(vm_compute; lia) ltac:(vm_compute; lia)).
Defined.

Lemma rankIncoming_cutoffs_never_decrease_witness :
  let s := VectorPlayerStream.make (players_of [5; 9; 2; 8; 1; 7; 3; 10; 4; 6]) in
  ∃ r w,
    Online.rankIncoming 11 3 (mkWorld s []) = (Ok r, w) ∧
    ∀ c1 c2 v1 v2,
      cutoffs_ r !! c1 = Some v1 → cutoffs_ r !! c2 = Some v2 →
      c1 ≤ c2 → v1 ≤ v2.
Proof.
  assert (Hvalid : valid (VectorPlayerStream.make
                            (players_of [5; 9; 2; 8; 1; 7; 3; 10; 4; 6])))
    by (split; by vm_compute).
  exact (rankIncoming_cutoffs_never_decrease (contracts := reference_contracts)
           (VectorPlayerStream.make (players_of [5; 9; 2; 8; 1; 7; 3; 10; 4; 6])) 3 11 []
           Hvalid eq_refl ltac:(vm_compute; lia)).
Defined.

(** * The tracker against the offline selectors *)

Section TrackerAgainstOffline.
Context `{STL : StdAlgorithms} {contracts : StdContracts STL}.

(** X10: on a stream made from a non-empty vector, with the size of the
    top decile of the vector as its interval, [rankIncoming] returns in
    [top_] the very levels that [quickSelectRank] and [heapRank] return
    on the vector. *)
Theorem rankIncoming_agrees_with_offline (players : list Player) (fuel : nat) :
  fits players → players ≠ [] → (length players < fuel)%nat →
  let k := ((length players + 9) / 10)%nat in
  ∃ r1 v1 r2 v2 r w,
    Offline.quickSelectRank players = Ok (r1, v1) ∧
    Offline.heapRank players = Ok (r2, v2) ∧
    Online.rankIncoming fuel (N.of_nat k)
      (mkWorld (VectorPlayerStream.make players) []) = (Ok r, w) ∧
    levels (top_ r) = levels (top_ r1) ∧
    levels (top_ r) = levels (top_ r2).
Proof.
  intros Hfit Hne Hfuel k. fold (top_count (length players)) in k.
  destruct (quickSelectRank_spec players Hfit) as (r1 & v1 & Hq & Htop1).
  destruct (heapRank_spec players Hfit) as (r2 & v2 & Hh & Htop2).
  apply top_decile_levels in Htop1, Htop2. fold k in Htop1, Htop2.
  assert (Hk : (0 < k ≤ length players)%nat).
  { split; [|apply top_count_le]. subst k. unfold top_count.
    destruct players; [done|]. simpl length. lia. }
  assert (Hvalid : valid (VectorPlayerStream.make players)).
  { split; simpl; [lia|done]. }
  destruct (rankIncoming_spec fuel (N.of_nat k) (VectorPlayerStream.make players) []
              Hvalid ltac:(lia) Hfuel)
    as (r & w & Hrun & _ & Hsorted & (rest & h & Hsel & Htop & Hlen) & _).
  change (upcoming (VectorPlayerStream.make players)) with players in Hsel, Hlen.
  exists r1, v1, r2, v2, r, w.
  pose proof (selects_naive_top _ _ _ _ Hsel Htop Hsorted) as Heq.
  rewrite Hlen in Heq.
  replace (N.to_nat (N.of_nat k) `min` length players)%nat with k in Heq by lia.
  split_and!; [done..|congruence|congruence].
Qed.

End TrackerAgainstOffline.

Lemma rankIncoming_agrees_with_offline_witness :
  let players := players_of [5; 1; 4; 2; 8; 7; 3; 6; 9; 10; 11] in
  ∃ r1 v1 r2 v2 r w,
    Offline.quickSelectRank players = Ok (r1, v1) ∧
    Offline.heapRank players = Ok (r2, v2) ∧
    Online.rankIncoming 12 2
      (mkWorld (VectorPlayerStream.make players) []) = (Ok r, w) ∧
    levels (top_ r) = levels (top_ r1) ∧
    levels (top_ r) = levels (top_ r2).
Proof.
  apply (rankIncoming_agrees_with_offline (contracts := reference_contracts)
           (players_of [5; 1; 4; 2; 8; 7; 3; 6; 9; 10; 11]) 12);
    [by vm_compute|done|vm_compute; lia].
Defined.

(** * Scenarios *)

Example quickSelectRank_scenario :
  match Offline.quickSelectRank (players_of [50; 10; 90; 30; 70; 20; 60; 40; 80; 100]) with
  | Ok (r, _) => levels (top_ r) = [100] ∧ cutoffs_ r = ∅
  | Err _ => False
  end.
Proof. by vm_compute. Qed.

Example heapRank_scenario :
  match Offline.heapRank (players_of [5; 1; 4; 2; 8; 7; 3; 6; 9; 10; 11]) with
  | Ok (r, _) => levels (top_ r) = [10; 11] ∧ cutoffs_ r = ∅
  | Err _ => False
  end.
Proof. by vm_compute. Qed.

Example rankIncoming_scenario :
  match (Online.rankIncoming 11 3
           (mkWorld (VectorPlayerStream.make
                       (players_of [5; 9; 2; 8; 1; 7; 3; 10; 4; 6])) [])).1 with
  | Ok r =>
      levels (top_ r) = [8; 9; 10] ∧
      cutoffs_ r = <[3 := 2]> (<[6 := 7]> (<[9 := 8]> (<[10 := 8]> ∅)))
  | Err _ => False
  end.
Proof. by vm_compute. Qed.

Example rankIncoming_short_stream :
  match (Online.rankIncoming 5 10
           (mkWorld (VectorPlayerStream.make (players_of [5; 9; 2; 8])) [])).1 with
  | Ok r => levels (top_ r) = [2; 5; 8; 9] ∧ cutoffs_ r = <[4 := 2]> ∅
  | Err _ => False
  end.
Proof. by vm_compute. Qed.
